(** * Persisted derived tables: dependency order and regeneration driver

    A shallow embedding of [pdt.py].  Python strings are [string]s, a
    character being a code point below 256; dictionaries whose iteration
    order matters are association lists in insertion order, Python sets are
    [gset]s, the pickle files that hold the trigger values are a [gmap] from
    path to value, and the warehouse connection is an interface whose answers
    are not fixed here.  Exceptions are values of [exn]; a computation returns
    a [result].  Calls to [logger] and to [datetime.now] have no effect on
    what is proved and are left out. *)

From Stdlib Require Import ZArith Lia Ascii.
From stdpp Require Import strings gmap list relations.

Set Warnings "-clear-no-such-hyp".

Local Open Scope Z_scope.
Local Open Scope nat_scope.

(** ** Exceptions and results *)

(** The exceptions the program can meet.  All of them are subclasses of
    Python's [Exception], so that [except Exception] catches each one. *)
Inductive exn : Type :=
| Exception (msg : string)
| KeyError (key : string)
| ValueError (msg : string)
| IndexError (msg : string)
| UnboundLocalError (var : string)
| DatabaseError (msg : string).

(** [OutOfFuel] is the outcome of the depth-first search when its recursion
    budget is used up; [view_topological_order_total] shows it is never the
    outcome of the order computation. *)
Inductive result (A : Type) : Type :=
| Ok (a : A)
| Raise (e : exn)
| OutOfFuel.

Arguments Ok {A} a.
Arguments Raise {A} e.
Arguments OutOfFuel {A}.

Definition bind_result {A B} (r : result A) (k : A → result B) : result B :=
  match r with
  | Ok a => k a
  | Raise e => Raise e
  | OutOfFuel => OutOfFuel
  end.

(** A [for] loop whose body may raise: the first exception ends the loop. *)
Fixpoint for_each {A S} (body : A → S → result S) (l : list A) (s : S) : result S :=
  match l with
  | [] => Ok s
  | x :: l' => bind_result (body x s) (for_each body l')
  end.

(** ** Strings *)

Definition newline : ascii := Ascii.ascii_of_nat 10.
Definition nl : string := String newline EmptyString.

(** [str.split(sep)] for a separator of one character. *)
Fixpoint split (sep : ascii) (s : string) : list string :=
  match s with
  | EmptyString => [EmptyString]
  | String c s' =>
      if Ascii.eqb c sep then EmptyString :: split sep s'
      else match split sep s' with
           | h :: t => String c h :: t
           | [] => [String c EmptyString]
           end
  end.

(** [sep.join(l)] *)
Fixpoint join (sep : string) (l : list string) : string :=
  match l with
  | [] => EmptyString
  | [x] => x
  | x :: l' => x +:+ sep +:+ join sep l'
  end.

(** [pattern in s] *)
Fixpoint contains (pattern s : string) : bool :=
  String.prefix pattern s ||
  match s with
  | EmptyString => false
  | String _ s' => contains pattern s'
  end.

(** [s.replace(old, new)] for a non-empty [old] (both call sites pass one):
    leftmost occurrences, not overlapping.  [skip] counts the characters of
    an occurrence still to be passed over. *)
Fixpoint replace_from (skip : nat) (old new s : string) : string :=
  match s with
  | EmptyString => EmptyString
  | String c s' =>
      match skip with
      | S k => replace_from k old new s'
      | O => if String.prefix old s
             then new +:+ replace_from (String.length old - 1) old new s'
             else String c (replace_from 0 old new s')
      end
  end.

Definition replace (old new s : string) : string := replace_from 0 old new s.

(** ** The pattern of embedded parameters

    [re.finditer("\${\s*(.+)\s*}", sql)], with the backtracking order of
    Python's [re]: every quantifier is greedy, [.] is any character but a
    newline, [\s] is white space. *)

(** [\s] on a [str]: the code points for which [str.isspace] holds, which
    below 256 are 9 to 13, 28 to 32, 133 (next line) and 160 (no-break
    space). *)
Definition is_space (c : ascii) : bool :=
  let n := Ascii.nat_of_ascii c in
  ((9 <=? n) && (n <=? 13)) || ((28 <=? n) && (n <=? 32)) || (n =? 133) || (n =? 160).

(** [\s*}] : the input left after the closing brace. *)
Fixpoint re_close (s : string) : option string :=
  match s with
  | EmptyString => None
  | String c s' =>
      if Ascii.eqb c "}"%char then Some s'
      else if is_space c then re_close s'
      else None
  end.

(** [(.+)\s*}] : the group and the input left.  The longer group is tried
    first. *)
Fixpoint re_group (s : string) : option (string * string) :=
  match s with
  | EmptyString => None
  | String c s' =>
      if Ascii.eqb c newline then None
      else match re_group s' with
           | Some (g, rest) => Some (String c g, rest)
           | None =>
               match re_close s' with
               | Some rest => Some (String c EmptyString, rest)
               | None => None
               end
           end
  end.

(** [\s*(.+)\s*}] : the longer run of leading white space is tried first. *)
Fixpoint re_open (s : string) : option (string * string) :=
  match s with
  | EmptyString => None
  | String c s' =>
      if is_space c
      then match re_open s' with
           | Some r => Some r
           | None => re_group s
           end
      else re_group s
  end.

(** The whole pattern, anchored at the start of [s]. *)
Definition re_match (s : string) : option (string * string) :=
  match s with
  | String "$"%char (String "{"%char s') => re_open s'
  | _ => None
  end.

(** The first groups of the successive matches, scanning from the left and
    resuming after each match. *)
Fixpoint finditer_from (skip : nat) (s : string) : list string :=
  match s with
  | EmptyString => []
  | String _ s' =>
      match skip with
      | S k => finditer_from k s'
      | O => match re_match s with
             | Some (g, rest) =>
                 g :: finditer_from (String.length s - String.length rest - 1) s'
             | None => finditer_from 0 s'
             end
      end
  end.

Definition finditer (s : string) : list string := finditer_from 0 s.

(** ** Dictionaries in insertion order *)

Fixpoint dict_get {V} (k : string) (d : list (string * V)) : option V :=
  match d with
  | [] => None
  | (k', v) :: d' => if decide (k = k') then Some v else dict_get k d'
  end.

(** [d[k] = v]: an existing key keeps its place. *)
Fixpoint dict_set {V} (k : string) (v : V) (d : list (string * V)) : list (string * V) :=
  match d with
  | [] => [(k, v)]
  | (k', v') :: d' =>
      if decide (k = k') then (k, v) :: d' else (k', v') :: dict_set k v d'
  end.

(** ** The view model *)

(** The [derived_table] block of a declaration; an absent key is [None]. *)
Record derived_table_object : Type := {
  dt_sql : option string;
  dt_sql_trigger_value : option string;
  dt_distribution_style : option string;
  dt_indexes : option (list string)
}.

(** A declaration record that has passed the test of [LookerView.__init__]:
    the key [view] is present. *)
Record view_object : Type := {
  vo_view : string;
  vo_derived_table : option derived_table_object;
  vo_sql_table_name : option string
}.

Record LookerContext : Type := {
  sql_dialect : string;
  views : list (string * view_object);
  sql_table_name_parameters : list (string * string)
}.

Definition view_name (v : view_object) : string := vo_view v.

Definition _pickle_path (v : view_object) : string := view_name v +:+ ".pickle".

Definition is_derived_table (v : view_object) : bool :=
  match vo_derived_table v with Some _ => true | None => false end.

Definition is_persisted_derived_table (v : view_object) : bool :=
  match vo_derived_table v with
  | Some dt => match dt_sql_trigger_value dt with Some _ => true | None => false end
  | None => false
  end.

Definition unknown_dialect {A} (ctx : LookerContext) : result A :=
  Raise (Exception ("Unknown SQL dialect " +:+ sql_dialect ctx)).

Definition default_schema (ctx : LookerContext) : result string :=
  if decide (sql_dialect ctx = "postgresql") then Ok "public"
  else unknown_dialect ctx.

Definition sql_schema_name (ctx : LookerContext) (v : view_object) : result string :=
  if is_derived_table v then Ok "looker_scratch" else default_schema ctx.

Definition sql_table_name (v : view_object) : result string :=
  if is_derived_table v then Ok ("_" +:+ view_name v)
  else match vo_sql_table_name v with
       | Some t => Ok t
       | None => Raise (KeyError "sql_table_name")
       end.

(** [view_name, _ = param.split('.')] *)
Definition unpack_pair (parts : list string) : result (string * string) :=
  match parts with
  | [a; b] => Ok (a, b)
  | [] => Raise (ValueError "not enough values to unpack (expected 2, got 0)")
  | [_] => Raise (ValueError "not enough values to unpack (expected 2, got 1)")
  | _ => Raise (ValueError "too many values to unpack (expected 2)")
  end.

(** The set of views a view depends on.  The Python set holds the view
    objects [views[view_name]]; an object is identified here by the key it is
    stored under, so the set is a finite map from that key to the object. *)
Definition view_dependencies (ctx : LookerContext) (v : view_object)
    : result (gmap string view_object) :=
  if negb (is_derived_table v) then Ok ∅
  else if is_persisted_derived_table v then
    match vo_derived_table v ≫= dt_sql with
    | None => Raise (KeyError "sql")
    | Some sql =>
        for_each
          (fun param view_dependencies =>
             bind_result (unpack_pair (split "."%char param)) (fun '(name, _) =>
             match dict_get name (views ctx) with
             | Some dependency => Ok (<[ name := dependency ]> view_dependencies)
             | None => Raise (KeyError name)
             end))
          (finditer sql) ∅
    end
  else Ok ∅.

(** [all_parameters]: a copy of the registered parameters, in their order. *)
Definition all_parameters (ctx : LookerContext) : list (string * string) :=
  sql_table_name_parameters ctx.

Definition _regenerate_derived_table_sql
    (ctx : LookerContext) (v : view_object) (sql : string) : result string :=
  if decide (sql_dialect ctx = "postgresql") then
    bind_result (sql_schema_name ctx v) (fun schema =>
    bind_result (sql_table_name v) (fun table =>
    match vo_derived_table v with
    | None => Raise (KeyError "derived_table")
    | Some dt =>
        let distribution_style := default "ALL" (dt_distribution_style dt) in
        let interleaved_sortkey :=
          match dt_indexes dt with
          | Some indexes => "INTERLEAVED SORTKEY(" +:+ join "," indexes +:+ ")"
          | None => EmptyString
          end in
        Ok (nl +:+
            "                DROP TABLE IF EXISTS " +:+ schema +:+ "." +:+ table +:+ ";" +:+ nl +:+
            "                CREATE TABLE " +:+ schema +:+ "." +:+ table +:+ nl +:+
            "                    DISTSTYLE " +:+ distribution_style +:+ nl +:+
            "                    " +:+ interleaved_sortkey +:+ " AS " +:+ sql +:+ ";" +:+ nl +:+
            "            ")
    end))
  else unknown_dialect ctx.

Definition regenerate_derived_table_sql (ctx : LookerContext) (v : view_object) : result string :=
  if is_persisted_derived_table v then
    match vo_derived_table v ≫= dt_sql with
    | None => Raise (KeyError "sql")
    | Some sql =>
        let sql := replace "%" "%%" sql in
        let sql :=
          fold_left
            (fun sql '(name, value) =>
               let pattern := "${" +:+ name +:+ "}" in
               if contains pattern sql then replace pattern value sql else sql)
            (all_parameters ctx) sql in
        _regenerate_derived_table_sql ctx v sql
    end
  else Raise (Exception ("Looker view " +:+ view_name v +:+ " is not a derived_table")).

(** [LookerView.__init__] followed by [self.views[view.view_name] = view]:
    the view registers the parameter [<view>.SQL_TABLE_NAME] and enters the
    table of views. *)
Definition load_view (ctx : LookerContext) (v : view_object) : result LookerContext :=
  let sql_table_name_parameter := view_name v +:+ ".SQL_TABLE_NAME" in
  bind_result (sql_schema_name ctx v) (fun schema =>
  bind_result (sql_table_name v) (fun table =>
  Ok {| sql_dialect := sql_dialect ctx;
        views := dict_set (view_name v) v (views ctx);
        sql_table_name_parameters :=
          dict_set sql_table_name_parameter (schema +:+ "." +:+ table)
            (sql_table_name_parameters ctx) |})).

Definition new_context (dialect : string) : LookerContext :=
  {| sql_dialect := dialect; views := []; sql_table_name_parameters := [] |}.

Definition _has_table_sql (ctx : LookerContext) (table schema : string) : result string :=
  if decide (sql_dialect ctx = "postgresql") then
    Ok (nl +:+
        "                SELECT EXISTS (" +:+ nl +:+
        "                    SELECT 1" +:+ nl +:+
        "                    FROM information_schema.tables" +:+ nl +:+
        "                    WHERE table_schema = '" +:+ schema +:+ "'" +:+ nl +:+
        "                    AND table_name = '" +:+ table +:+ "'" +:+ nl +:+
        "                );" +:+ nl +:+
        "            ")
  else unknown_dialect ctx.

Definition _create_schema (ctx : LookerContext) (schema : string) : result string :=
  if decide (sql_dialect ctx = "postgresql") then
    Ok (nl +:+
        "                CREATE SCHEMA IF NOT EXISTS " +:+ schema +:+ ";" +:+ nl +:+
        "            ")
  else unknown_dialect ctx.

(** ** The dependency graph and its topological order *)

(** [adjacency_lists[k].append(x)] on a [defaultdict(list)]. *)
Definition adjacency_append (k x : string) (adjacency_lists : gmap string (list string))
    : gmap string (list string) :=
  <[ k := default [] (adjacency_lists !! k) ++ [x] ]> adjacency_lists.

(** [adjacency_lists[k]], read. *)
Definition adjacent (adjacency_lists : gmap string (list string)) (k : string) : list string :=
  default [] (adjacency_lists !! k).

(** The objects of a dependency set, in the order the set yields them.
    Python does not specify that order; [map_to_list] fixes one, and nothing
    below depends on which. *)
Definition dependency_objects (deps : gmap string view_object) : list view_object :=
  (map_to_list deps).*2.

Definition build_adjacency_lists (ctx : LookerContext) : result (gmap string (list string)) :=
  for_each
    (fun '(_, v) adjacency_lists =>
       bind_result (view_dependencies ctx v) (fun deps =>
       Ok (fold_left
             (fun adjacency_lists view_dependency =>
                adjacency_append (view_name v) (view_name view_dependency) adjacency_lists)
             (dependency_objects deps) adjacency_lists)))
    (views ctx) ∅.

Record dfs_state : Type := {
  ordered_view_names : list string;
  permanent_visit_set : gset string;
  temporary_visit_set : gset string
}.

Definition dfs_start : dfs_state :=
  {| ordered_view_names := []; permanent_visit_set := ∅; temporary_visit_set := ∅ |}.

(** The nested function [visit].  [ordered_view_names.insert(0, x)] is a
    cons.  Python's recursion is bounded here by [fuel]. *)
Fixpoint visit (fuel : nat) (adjacency_lists : gmap string (list string))
    (name : string) (st : dfs_state) : result dfs_state :=
  match fuel with
  | O => OutOfFuel
  | S fuel' =>
      if decide (name ∈ permanent_visit_set st) then Ok st
      else if decide (name ∈ temporary_visit_set st) then
        Raise (Exception ("Views contain a circular dependency " +:+ name))
      else
        bind_result
          (for_each (visit fuel' adjacency_lists) (adjacent adjacency_lists name)
             {| ordered_view_names := ordered_view_names st;
                permanent_visit_set := permanent_visit_set st;
                temporary_visit_set := {[ name ]} ∪ temporary_visit_set st |})
          (fun st' =>
             Ok {| ordered_view_names := name :: ordered_view_names st';
                   permanent_visit_set := {[ name ]} ∪ permanent_visit_set st';
                   temporary_visit_set := temporary_visit_set st' ∖ {[ name ]} |})
  end.

(** The names [view.view_name] for [view in self.views.values()]. *)
Definition view_names (ctx : LookerContext) : list string :=
  (fun kv => view_name kv.2) <$> views ctx.

(** The entry loop: its [while True] runs the [for] loop once, since [done]
    is never set to [False]. *)
Definition entry (fuel : nat) (adjacency_lists : gmap string (list string))
    (name : string) (st : dfs_state) : result dfs_state :=
  if decide (name ∈ permanent_visit_set st) then Ok st
  else visit fuel adjacency_lists name st.

Definition visit_all (fuel : nat) (adjacency_lists : gmap string (list string))
    (names : list string) : result dfs_state :=
  for_each (entry fuel adjacency_lists) names dfs_start.

(** A recursion of [visit] adds a view to the temporary set before it goes
    deeper, so its depth is at most the number of views plus one. *)
Definition recursion_budget (ctx : LookerContext) : nat := S (length (views ctx)).

Definition view_topological_order (ctx : LookerContext) : result (list string) :=
  bind_result (build_adjacency_lists ctx) (fun adjacency_lists =>
  bind_result (visit_all (recursion_budget ctx) adjacency_lists (view_names ctx)) (fun st =>
  Ok (reverse (ordered_view_names st)))).

(** ** The warehouse, the trigger value store and the trace of a run *)

(** A scalar a query can return. *)
Inductive value : Type :=
| VNone
| VBool (b : bool)
| VInt (z : Z)
| VStr (s : string).

(** [if x:] *)
Definition truthy (x : value) : bool :=
  match x with
  | VNone => false
  | VBool b => b
  | VInt z => negb (z =? 0)%Z
  | VStr s => negb (String.eqb s EmptyString)
  end.

(** [x is not None] *)
Definition is_not_None (x : value) : bool :=
  match x with VNone => false | _ => true end.

(** [x == y]; a Python [bool] is the integer 0 or 1. *)
Definition py_eq (x y : value) : bool :=
  match x, y with
  | VNone, VNone => true
  | VBool a, VBool b => Bool.eqb a b
  | VBool a, VInt z | VInt z, VBool a => (z =? (if a then 1 else 0))%Z
  | VInt a, VInt b => (a =? b)%Z
  | VStr a, VStr b => String.eqb a b
  | _, _ => false
  end.

(** What [connection.execute] returns: the driver's row count and the rows
    an iteration yields. *)
Record ResultProxy : Type := {
  rowcount : Z;
  rows : list (list value)
}.

(** The injected connection.  Its answers depend on a state of the
    warehouse that the program does not see. *)
Class Connection : Type := {
  DB : Type;
  Transaction : Type;
  conn_execute : string → DB → (exn + ResultProxy) * DB;
  conn_begin : DB → (exn + Transaction) * DB;
  conn_commit : Transaction → DB → (exn + unit) * DB;
  conn_rollback : Transaction → DB → (exn + unit) * DB
}.

(** What a run does to the outside, in the order it does it. *)
Inductive event : Type :=
| EExecute (sql : string)
| EBegin
| ECommit
| ERollback
| EPickleDump (path : string) (x : value).

Definition answer {A} (a : exn + A) : result A :=
  match a with inl e => Raise e | inr x => Ok x end.

Section driver.
Context {conn : Connection}.

(** The state a run works on: the warehouse, the pickle files, the trace,
    and the local variable [transaction] of [trigger_all], which is unbound
    ([None]) until the first [connection.begin()] has returned. *)
Record State : Type := {
  db : DB;
  files : gmap string value;
  trace : list event;
  transaction : option Transaction
}.

Definition M (A : Type) : Type := State → result A * State.

Definition ret {A} (a : A) : M A := fun s => (Ok a, s).
Definition raise {A} (e : exn) : M A := fun s => (Raise e, s).
Definition lift {A} (r : result A) : M A := fun s => (r, s).

Definition bind {A B} (m : M A) (k : A → M B) : M B :=
  fun s =>
    match m s with
    | (Ok a, s') => k a s'
    | (Raise e, s') => (Raise e, s')
    | (OutOfFuel, s') => (OutOfFuel, s')
    end.

(** [try: m except Exception as e: handler e] *)
Definition try_except {A} (m : M A) (handler : exn → M A) : M A :=
  fun s =>
    match m s with
    | (Raise e, s') => handler e s'
    | r => r
    end.

#[global] Instance M_bind : MBind M := fun A B k m => bind m k.

Definition log (ev : event) (d : DB) (s : State) : State :=
  {| db := d; files := files s; trace := trace s ++ [ev]; transaction := transaction s |}.

(** [connection.execute(sql)] *)
Definition execute (sql : string) : M ResultProxy :=
  fun s => let '(a, d) := conn_execute sql (db s) in (answer a, log (EExecute sql) d s).

(** [transaction = connection.begin()] *)
Definition begin_transaction : M unit :=
  fun s =>
    match conn_begin (db s) with
    | (inr t, d) =>
        (Ok tt, {| db := d; files := files s; trace := trace s ++ [EBegin];
                   transaction := Some t |})
    | (inl e, d) => (Raise e, log EBegin d s)
    end.

(** [transaction.commit()] *)
Definition commit_transaction : M unit :=
  fun s =>
    match transaction s with
    | None => (Raise (UnboundLocalError "transaction"), s)
    | Some t => let '(a, d) := conn_commit t (db s) in (answer a, log ECommit d s)
    end.

(** [transaction.rollback()] *)
Definition rollback_transaction : M unit :=
  fun s =>
    match transaction s with
    | None => (Raise (UnboundLocalError "transaction"), s)
    | Some t => let '(a, d) := conn_rollback t (db s) in (answer a, log ERollback d s)
    end.

(** The getter of [trigger_value]: a missing file reads as [None]. *)
Definition trigger_value (v : view_object) : M value :=
  fun s => (Ok (default VNone (files s !! _pickle_path v)), s).

(** The setter of [trigger_value]. *)
Definition set_trigger_value (v : view_object) (x : value) : M unit :=
  fun s =>
    (Ok tt, {| db := db s; files := <[ _pickle_path v := x ]> (files s);
               trace := trace s ++ [EPickleDump (_pickle_path v) x];
               transaction := transaction s |}).

(** [for row in result: return row[0]]; a function that falls off its end
    returns [None]. *)
Definition first_row_first_column (result : ResultProxy) : M value :=
  match rows result with
  | row :: _ =>
      match row with
      | x :: _ => ret x
      | [] => raise (IndexError "row index out of range")
      end
  | [] => ret VNone
  end.

Definition sql_trigger_value (v : view_object) : result string :=
  match vo_derived_table v with
  | None => Raise (KeyError "derived_table")
  | Some dt =>
      match dt_sql_trigger_value dt with
      | Some q => Ok q
      | None => Raise (KeyError "sql_trigger_value")
      end
  end.

Definition get_latest_sql_trigger_value (v : view_object) : M value :=
  query ← lift (sql_trigger_value v);
  result ← execute query;
  if (0 <? rowcount result)%Z then first_row_first_column result
  else raise (Exception "Looker `sql_trigger_value` query did not return any value").

Definition regenerate_persisted_derived_table (ctx : LookerContext) (v : view_object) : M unit :=
  sql ← lift (regenerate_derived_table_sql ctx v);
  execute sql;;
  ret tt.

Definition has_table (ctx : LookerContext) (table schema : string) : M value :=
  sql ← lift (_has_table_sql ctx table schema);
  result ← execute sql;
  if (0 <? rowcount result)%Z then first_row_first_column result
  else raise (Exception "Has table sql returned no result").

Definition create_schema (ctx : LookerContext) (schema : string) : M unit :=
  sql ← lift (_create_schema ctx schema);
  execute sql;;
  ret tt.

Definition create_looker_scratch_schema (ctx : LookerContext) : M unit :=
  create_schema ctx "looker_scratch".

(** The staleness check of [trigger_view].  It yields whether the function
    returns at once, and the local variable [latest_trigger_value], which
    stays unbound ([None]) when the table does not exist. *)
Definition check_staleness (ctx : LookerContext) (v : view_object) : M (bool * option value) :=
  table ← lift (sql_table_name v);
  schema ← lift (sql_schema_name ctx v);
  has_table ← has_table ctx table schema;
  if truthy has_table then
    latest_trigger_value ← get_latest_sql_trigger_value v;
    stored ← trigger_value v;
    if is_not_None stored then
      stored ← trigger_value v;
      if py_eq stored latest_trigger_value then ret (true, Some latest_trigger_value)
      else ret (false, Some latest_trigger_value)
    else ret (false, Some latest_trigger_value)
  else ret (false, None).

Definition trigger_view (ctx : LookerContext) (v : view_object) : M unit :=
  if negb (is_persisted_derived_table v) then
    raise (Exception "View cannot be triggered: its not a persisted derived table!")
  else
    try_except
      (checked ← check_staleness ctx v;
       let '(fresh, latest_trigger_value) := (checked : bool * option value) in
       if fresh then ret tt
       else
         regenerate_persisted_derived_table ctx v;;
         match latest_trigger_value with
         | Some x => set_trigger_value v x
         | None => raise (UnboundLocalError "latest_trigger_value")
         end)
      (fun e => raise e).

(** The [for] loop of [trigger_all]. *)
Fixpoint trigger_each (ctx : LookerContext) (view_name_order : list string) : M unit :=
  match view_name_order with
  | [] => ret tt
  | name :: rest =>
      v ← lift (match dict_get name (views ctx) with
                | Some v => Ok v
                | None => Raise (KeyError name)
                end);
      if negb (is_persisted_derived_table v) then trigger_each ctx rest
      else
        begin_transaction;;
        trigger_view ctx v;;
        commit_transaction;;
        trigger_each ctx rest
  end.

(** On entry the local variable [transaction] is unbound.  The connection
    is taken as open: [engine.connect] and the closing of the connection at
    the end of the [with] block are outside the model. *)
Definition enter : M unit :=
  fun s => (Ok tt, {| db := db s; files := files s; trace := trace s; transaction := None |}).

Definition trigger_all (ctx : LookerContext) : M unit :=
  enter;;
  view_name_order ← lift (view_topological_order ctx);
  try_except
    (create_looker_scratch_schema ctx;;
     trigger_each ctx view_name_order)
    (fun _ => rollback_transaction).

End driver.

(** ** A scripted connection

    A warehouse that answers the successive statements from a list, and
    whose transactions always open, commit and roll back. *)
Definition scripted : Connection :=
  {| DB := list (exn + ResultProxy);
     Transaction := unit;
     conn_execute := fun _ d =>
       match d with
       | a :: d' => (a, d')
       | [] => (inl (DatabaseError "no answer"), [])
       end;
     conn_begin := fun d => (inr tt, d);
     conn_commit := fun _ d => (inr tt, d);
     conn_rollback := fun _ d => (inr tt, d) |}.

Definition one_row (x : value) : exn + ResultProxy :=
  inr {| rowcount := 1; rows := [[x]] |}.

Definition no_rows : exn + ResultProxy :=
  inr {| rowcount := 0; rows := [] |}.

Definition start (answers : list (exn + ResultProxy)) (stored : gmap string value)
    : @State scripted :=
  {| db := (answers : @DB scripted); files := stored; trace := []; transaction := None |}.

Definition pdt (name sql trigger : string) : view_object :=
  {| vo_view := name;
     vo_derived_table := Some {| dt_sql := Some sql; dt_sql_trigger_value := Some trigger;
                                 dt_distribution_style := None; dt_indexes := None |};
     vo_sql_table_name := None |}.

Definition base (name table : string) : view_object :=
  {| vo_view := name; vo_derived_table := None; vo_sql_table_name := Some table |}.

Definition load_views (dialect : string) (l : list view_object) : result LookerContext :=
  for_each (fun v ctx => load_view ctx v) l (new_context dialect).

Definition ctx_of (r : result LookerContext) : LookerContext :=
  match r with Ok c => c | _ => new_context "" end.

(** ** Sample declarations *)

(** A base table and two persisted derived tables, [der2] reading [der1]
    and [der1] reading [base]. *)
Definition ctx_chain : LookerContext :=
  ctx_of (load_views "postgresql"
    [base "base" "t_base";
     pdt "der2" "select * from ${der1.SQL_TABLE_NAME}" "select max(id) from der1";
     pdt "der1" "select * from ${base.SQL_TABLE_NAME}" "select max(id) from base"]).

(** Two persisted derived tables that read each other. *)
Definition ctx_cycle : LookerContext :=
  ctx_of (load_views "postgresql"
    [pdt "A" "select * from ${B.SQL_TABLE_NAME}" "select 1";
     pdt "B" "select * from ${A.SQL_TABLE_NAME}" "select 1"]).

Definition graph_of (ctx : LookerContext) : gmap string (list string) :=
  match build_adjacency_lists ctx with Ok adj => adj | _ => ∅ end.

Definition rank_chain (v : string) : nat :=
  if decide (v = "der2") then 2 else if decide (v = "der1") then 1 else 0.

Definition der1 : view_object :=
  pdt "der1" "select * from ${base.SQL_TABLE_NAME}" "select max(id) from base".

Definition text_of (r : result string) : string :=
  match r with Ok q => q | _ => EmptyString end.

Definition create_scratch : string := text_of (_create_schema ctx_chain "looker_scratch").
Definition exists_der1 : string := text_of (_has_table_sql ctx_chain "_der1" "looker_scratch").
Definition regenerate_der1 : string := text_of (regenerate_derived_table_sql ctx_chain der1).

Definition two_rows : ResultProxy :=
  {| rowcount := 2; rows := [[VInt 7; VStr "x"]; [VInt 8; VStr "y"]] |}.

Definition three_rows : ResultProxy :=
  {| rowcount := 3; rows := [[VBool true]; [VBool false]; [VBool false]] |}.

(** The table of [der1] exists and its trigger value is the stored one. *)
Definition der1_fresh : @State scripted :=
  start [one_row (VBool true); one_row (VInt 5)] {[ "der1.pickle" := VInt 5 ]}.

(** The table of [der1] exists; the stored trigger value and the one the
    trigger query returns are both [None]. *)
Definition der1_none : @State scripted :=
  start [one_row (VBool true); one_row VNone; no_rows] {[ "der1.pickle" := VNone ]}.

(** The table of [der1] does not exist. *)
Definition der1_missing : @State scripted :=
  start [one_row (VBool false); no_rows] ∅.

(** A run in which every statement succeeds and both tables exist. *)
Definition run_regenerating : @State scripted :=
  start [no_rows; one_row (VBool true); one_row (VInt 5); no_rows;
         one_row (VBool true); one_row (VInt 9); no_rows] ∅.

(** A run in which the existence query of [der1] fails. *)
Definition run_failing : @State scripted :=
  start [no_rows; inl (DatabaseError "connection lost")] ∅.

Definition run_failing_prepared : @State scripted :=
  ((create_looker_scratch_schema ctx_chain ≫= fun _ => trigger_each ctx_chain ["base"])
     (enter run_failing).2).2.

Definition run_failing_begun : @State scripted := (begin_transaction run_failing_prepared).2.

Definition run_failing_failed : @State scripted :=
  (trigger_view ctx_chain der1 run_failing_begun).2.

(** A run in which the creation of the scratch schema fails. *)
Definition run_without_schema : @State scripted :=
  start [inl (DatabaseError "permission denied")] ∅.

(** Two references on one line, and the same two on two lines. *)
Definition one_line : string := "select * from ${a.field1} join ${b.field2}".
Definition two_lines : string := "select * from ${a.field1}" +:+ nl +:+ "join ${b.field2}".

(** Two base tables and a persisted derived table [c] with the template
    [sql]. *)
Definition ctx_ab (sql : string) : LookerContext :=
  ctx_of (load_views "postgresql" [base "a" "t_a"; base "b" "t_b"; pdt "c" sql "select 1"]).

(** Write-after-commit: a trigger value is written only once a commit has
    taken place. *)
Definition written_after_commit (evs : list event) : Prop :=
  ∀ pre p x post, evs = pre ++ EPickleDump p x :: post → ECommit ∈ pre.

(** ** Further sample declarations *)

Definition der2 : view_object :=
  pdt "der2" "select * from ${der1.SQL_TABLE_NAME}" "select max(id) from der1".

Definition regenerate_der2 : string := text_of (regenerate_derived_table_sql ctx_chain der2).

(** The table of [der1] exists, and the trigger query returns a value that
    is not the stored one. *)
Definition der1_stale : @State scripted :=
  start [one_row (VBool true); one_row (VInt 6); no_rows] {[ "der1.pickle" := VInt 5 ]}.

(** The existence query of [der1] returns no row. *)
Definition der1_unanswered : @State scripted := start [no_rows] ∅.

(** Two base tables and no derived table. *)
Definition ctx_bases : LookerContext :=
  ctx_of (load_views "postgresql" [base "a" "t_a"; base "b" "t_b"]).

(** A persisted derived table under a dialect that is not supported. *)
Definition ctx_mysql : LookerContext :=
  ctx_of (load_views "mysql" [pdt "der1" "select 1" "select 1"]).

(** ** Shapes of templates *)

(** [all_chars P s]: every character of [s] satisfies [P]. *)
Fixpoint all_chars (P : ascii → bool) (s : string) : bool :=
  match s with
  | EmptyString => true
  | String c s' => P c && all_chars P s'
  end.

Definition other_than (x : ascii) (c : ascii) : bool := negb (Ascii.eqb c x).

(** A character of a view name: no dot, no white space (a newline is white
    space). *)
Definition name_char (c : ascii) : bool := other_than "." c && negb (is_space c).

(** A character of a field name: no dot, no newline. *)
Definition field_char (c : ascii) : bool := other_than "." c && other_than newline c.

(** A template with a literal percent sign and braces, and no reference. *)
Definition plain_template : string := "select a % 2, '{}' from t".

(** ** Loading declarations *)

(** A record as the parser yields it: the key [view] may be absent. *)
Record declaration : Type := {
  decl_view : option string;
  decl_derived_table : option derived_table_object;
  decl_sql_table_name : option string
}.

(** [LookerView(looker_context, view_object)]: the view, and the context
    with the parameter [<view>.SQL_TABLE_NAME] registered. *)
Definition LookerView (ctx : LookerContext) (d : declaration)
    : result (view_object * LookerContext) :=
  match decl_view d with
  | None => Raise (Exception "Invalid view object: contains no view key-value pair!")
  | Some name =>
      let v := {| vo_view := name; vo_derived_table := decl_derived_table d;
                  vo_sql_table_name := decl_sql_table_name d |} in
      let sql_table_name_parameter := view_name v +:+ ".SQL_TABLE_NAME" in
      bind_result (sql_schema_name ctx v) (fun schema =>
      bind_result (sql_table_name v) (fun table =>
      Ok (v, {| sql_dialect := sql_dialect ctx;
                views := views ctx;
                sql_table_name_parameters :=
                  dict_set sql_table_name_parameter (schema +:+ "." +:+ table)
                    (sql_table_name_parameters ctx) |})))
  end.

(** One turn of the loop of [load_lookml]: a record without the key
    [view] is passed over; otherwise the view is constructed and stored under
    its name. *)
Definition load_step (d : declaration) (ctx : LookerContext) : result LookerContext :=
  match decl_view d with
  | Some _ =>
      bind_result (LookerView ctx d) (fun '(v, ctx') =>
      Ok {| sql_dialect := sql_dialect ctx';
            views := dict_set (view_name v) v (views ctx');
            sql_table_name_parameters := sql_table_name_parameters ctx' |})
  | None => Ok ctx
  end.

(** The loop of [load_lookml] over the records of one file. *)
Definition load_lookml (ctx : LookerContext) (ds : list declaration) : result LookerContext :=
  for_each load_step ds ctx.

Definition has_view (d : declaration) : bool :=
  match decl_view d with Some _ => true | None => false end.

(** What loading establishes: the keys of [views] are distinct, each view
    is stored under its own name, and its physical location is registered
    under [<view>.SQL_TABLE_NAME]. *)
Definition well_formed (ctx : LookerContext) : Prop :=
  NoDup (views ctx).*1 ∧
  ∀ k v, dict_get k (views ctx) = Some v →
    view_name v = k ∧
    ∃ schema table,
      sql_schema_name ctx v = Ok schema ∧ sql_table_name v = Ok table ∧
      dict_get (k +:+ ".SQL_TABLE_NAME") (sql_table_name_parameters ctx)
        = Some (schema +:+ "." +:+ table).

Definition declare_base (name table : string) : declaration :=
  {| decl_view := Some name; decl_derived_table := None; decl_sql_table_name := Some table |}.

Definition declare_pdt (name sql trigger : string) : declaration :=
  {| decl_view := Some name;
     decl_derived_table := Some {| dt_sql := Some sql; dt_sql_trigger_value := Some trigger;
                                   dt_distribution_style := None; dt_indexes := None |};
     decl_sql_table_name := None |}.

(** A record without the key [view]. *)
Definition not_a_view : declaration :=
  {| decl_view := None; decl_derived_table := None; decl_sql_table_name := None |}.

(** A file that declares [base] twice, a record that is not a view, and two
    persisted derived tables. *)
Definition sample_file : list declaration :=
  [declare_base "base" "t_old"; not_a_view;
   declare_pdt "der2" "select * from ${der1.SQL_TABLE_NAME}" "select max(id) from der1";
   declare_base "base" "t_base";
   declare_pdt "der1" "select * from ${base.SQL_TABLE_NAME}" "select max(id) from base"].

Definition sample_loaded : LookerContext :=
  ctx_of (load_lookml (new_context "postgresql") sample_file).

(** ** A connection whose commits fail *)

(** As [scripted], but every commit raises. *)
Definition scripted_failing_commit : Connection :=
  {| DB := list (exn + ResultProxy);
     Transaction := unit;
     conn_execute := fun _ d =>
       match d with
       | a :: d' => (a, d')
       | [] => (inl (DatabaseError "no answer"), [])
       end;
     conn_begin := fun d => (inr tt, d);
     conn_commit := fun _ d => (inl (DatabaseError "commit failed"), d);
     conn_rollback := fun _ d => (inr tt, d) |}.

(** The table of [der1] exists, its trigger value has changed, and the
    regeneration statement succeeds, on a connection whose commits fail. *)
Definition der1_uncommitted : @State scripted_failing_commit :=
  {| db := ([one_row (VBool true); one_row (VInt 6); no_rows] : @DB scripted_failing_commit);
     files := {[ "der1.pickle" := VInt 5 ]}; trace := []; transaction := None |}.

(** That state once the transaction is open and [trigger_view] has returned. *)
Definition der1_written : @State scripted_failing_commit :=
  {| db := ([] : @DB scripted_failing_commit);
     files := {[ "der1.pickle" := VInt 6 ]};
     trace := [EBegin; EExecute exists_der1; EExecute "select max(id) from base";
               EExecute regenerate_der1; EPickleDump "der1.pickle" (VInt 6)];
     transaction := Some tt |}.

(** The table of [der1] exists, its trigger value has changed, and the
    regeneration statement fails. *)
Definition der1_failing : @State scripted :=
  start [one_row (VBool true); one_row (VInt 6); inl (DatabaseError "disk full")]
        {[ "der1.pickle" := VInt 5 ]}.

(** ** References between views *)

(** [refers ctx a b]: a loaded view named [a] has, in the dependency set
    that [view_dependencies] returns for it, a view named [b]. *)
Definition refers (ctx : LookerContext) (a b : string) : Prop :=
  ∃ k vo deps kd d,
    (k, vo) ∈ views ctx ∧ view_name vo = a ∧
    view_dependencies ctx vo = Ok deps ∧
    deps !! kd = Some d ∧ view_name d = b.

(** The dependency set of every loaded view can be read. *)
Definition readable (ctx : LookerContext) : Prop :=
  ∀ k vo, (k, vo) ∈ views ctx → ∃ deps, view_dependencies ctx vo = Ok deps.

(** No view refers to itself, directly or through other views. *)
Definition acyclic_references (ctx : LookerContext) : Prop :=
  ∀ v, ¬ tc (refers ctx) v v.

(** Three views: [A] reads [B] and [C] on one line, [B] reads [A]. *)
Definition ctx_cycle_one_line : LookerContext :=
  ctx_of (load_views "postgresql"
    [base "C" "t_c";
     pdt "A" "select * from ${B.x} join ${C.y}" "select 1";
     pdt "B" "select * from ${A.x}" "select 1"]).

(** The same views, with the two references of [A] on two lines. *)
Definition ctx_cycle_two_lines : LookerContext :=
  ctx_of (load_views "postgresql"
    [base "C" "t_c";
     pdt "A" ("select * from ${B.x}" +:+ nl +:+ "join ${C.y}") "select 1";
     pdt "B" "select * from ${A.x}" "select 1"]).

(** ** Predicates of the specification *)

(** A stretch of a trace without a rollback. *)
Definition no_rollback (evs : list event) : Prop := Forall (fun ev => ev ≠ ERollback) evs.


(** [edge adj v w]: the view [v] refers to the view [w]. *)
Definition edge (adjacency_lists : gmap string (list string)) : relation string :=
  fun v w => w ∈ adjacent adjacency_lists v.

(** [depends_on adj v w]: [v] depends on [w], directly or through other views. *)
Definition depends_on (adjacency_lists : gmap string (list string)) : relation string :=
  tc (edge adjacency_lists).

Definition acyclic (adjacency_lists : gmap string (list string)) : Prop :=
  ∀ v, ¬ depends_on adjacency_lists v v.

(** [earlier l w v]: [w] stands at a smaller index of [l] than [v]. *)
Definition earlier (l : list string) (w v : string) : Prop :=
  ∃ i j, l !! i = Some w ∧ l !! j = Some v ∧ i < j.

(** The error of [visit]: it names a view that depends on itself. *)
Definition cycle_error (adjacency_lists : gmap string (list string)) (e : exn) : Prop :=
  ∃ v, e = Exception ("Views contain a circular dependency " +:+ v) ∧
       depends_on adjacency_lists v v.

(** What the search maintains: the permanent set is the set of the names
    ordered so far, none of them twice, none of them on the current path, and
    each one deeper in [ordered_view_names] than every view it refers to is
    shallower. *)
Definition dfs_inv (adjacency_lists : gmap string (list string)) (st : dfs_state) : Prop :=
  permanent_visit_set st = list_to_set (ordered_view_names st) ∧
  NoDup (ordered_view_names st) ∧
  permanent_visit_set st ## temporary_visit_set st ∧
  ∀ l1 v l2 w, ordered_view_names st = l1 ++ v :: l2 →
               edge adjacency_lists v w → w ∈ l2.

Definition visited_after (adjacency_lists : gmap string (list string))
    (name : string) (st st' : dfs_state) : Prop :=
  dfs_inv adjacency_lists st' ∧
  temporary_visit_set st' = temporary_visit_set st ∧
  (∃ new, ordered_view_names st' = new ++ ordered_view_names st) ∧
  name ∈ permanent_visit_set st'.

(** A stretch of a trace that holds executed statements only. *)
Definition only_executes (evs : list event) : Prop :=
  Forall (fun ev => ∃ sql, ev = EExecute sql) evs.

(** A computation that touches the outside through [connection.execute]
    alone. *)
Definition quiet {conn : Connection} {A} (m : M A) : Prop :=
  ∀ s, ∃ evs,
    trace (m s).2 = trace s ++ evs ∧ only_executes evs ∧
    files (m s).2 = files s ∧ transaction (m s).2 = transaction s.

(** [stored_within_transaction ctx evs]: wherever [evs] holds the writing of
    a trigger value, the file is the one of a loaded view, the event just
    before is the execution of the regeneration statement of that view, and
    the event just after is the commit. *)
Definition stored_within_transaction (ctx : LookerContext) (evs : list event) : Prop :=
  ∀ pre p x post, evs = pre ++ EPickleDump p x :: post →
    ∃ name v sql pre' post',
      dict_get name (views ctx) = Some v ∧
      p = _pickle_path v ∧
      regenerate_derived_table_sql ctx v = Ok sql ∧
      pre = pre' ++ [EExecute sql] ∧
      post = ECommit :: post'.

(** [stored_after_regeneration ctx s pre p x post]: in the run of
    [trigger_all] from [s], the writing of [x] to the file [p] that comes
    after the events [pre] and before the events [post] is the writing of the
    trigger value of a persisted derived table [v] of the order, reached
    after the scratch schema has been created, the views before [v] have been
    processed without an error and the transaction of [v] has been opened; the
    staleness check has found [v] stale with [x] the value of the trigger
    query, the regeneration statement of [v] is the last thing done before
    the writing and the connection has returned a result for it, not raised;
    and [post] starts with the commit. *)
Definition stored_after_regeneration {conn : Connection} (ctx : LookerContext) (s : State)
    (pre : list event) (p : string) (x : value) (post : list event) : Prop :=
  ∃ before name rest v (sc s1 s2 s3 : State) sql res d post',
    view_topological_order ctx = Ok (before ++ name :: rest) ∧
    create_looker_scratch_schema ctx (enter s).2 = (Ok tt, sc) ∧
    trigger_each ctx before sc = (Ok tt, s1) ∧
    dict_get name (views ctx) = Some v ∧
    is_persisted_derived_table v = true ∧
    p = _pickle_path v ∧
    begin_transaction s1 = (Ok tt, s2) ∧
    check_staleness ctx v s2 = (Ok (false, Some x), s3) ∧
    regenerate_derived_table_sql ctx v = Ok sql ∧
    conn_execute sql (db s3) = (inr res, d) ∧
    trigger_view ctx v s2 = set_trigger_value v x (log (EExecute sql) d s3) ∧
    trace s3 ++ [EExecute sql] = trace s ++ pre ∧
    post = ECommit :: post'.

(** * Properties *)

(** ** Loops *)

Lemma for_each_preserves {A S B} (body : A → S → result S) (f : S → B) (l : list A) :
  (∀ x s s', body x s = Ok s' → f s' = f s) →
  ∀ s s', for_each body l s = Ok s' → f s' = f s.
Proof.
  intros Hbody. induction l as [|x l IH]; intros s s' H; simpl in H.
  - by inversion H.
  - destruct (body x s) as [s1| |] eqn:E; simpl in H; try done.
    rewrite (IH _ _ H). eauto.
Qed.

Lemma for_each_inv {A S} (body : A → S → result S) (P : S → Prop) (l : list A) :
  (∀ x s s', x ∈ l → P s → body x s = Ok s' → P s') →
  ∀ s s', P s → for_each body l s = Ok s' → P s'.
Proof.
  induction l as [|x l IH]; intros Hbody s s' HP H; simpl in H.
  - by inversion H; subst.
  - destruct (body x s) as [s1| |] eqn:E; simpl in H; try done.
    apply (IH (fun y s s' Hy => Hbody y s s' (list_elem_of_further _ _ _ Hy)) s1); [|done].
    eapply Hbody; [left|done|done].
Qed.

(** A loop that does not end normally stopped in one of its iterations. *)
Lemma for_each_stops {A S} (body : A → S → result S) (P : S → Prop) (l : list A) (r : result S) :
  (∀ x s s', x ∈ l → P s → body x s = Ok s' → P s') →
  (∀ s', r ≠ Ok s') →
  ∀ s, P s → for_each body l s = r → ∃ x s1, x ∈ l ∧ P s1 ∧ body x s1 = r.
Proof.
  intros Hbody Hr. induction l as [|x l IH]; intros s HP H; simpl in H.
  - by destruct (Hr s).
  - destruct (body x s) as [s1| |] eqn:E; simpl in H.
    + destruct IH with (s := s1) as (y & s2 & Hy & HP2 & Hy2); [| |done|].
      * intros y s0 s0' Hy. apply Hbody. by right.
      * eapply Hbody; [left|done|done].
      * exists y, s2. split_and!; [by right|done|done].
    + exists x, s. split_and!; [left|done|congruence].
    + exists x, s. split_and!; [left|done|congruence].
Qed.

(** ** The depth-first search *)

Section dfs.
Variable adj : gmap string (list string).

Lemma visit_temp fuel name st st' :
  visit fuel adj name st = Ok st' →
  temporary_visit_set st' = temporary_visit_set st.
Proof.
  revert name st st'. induction fuel as [|fuel IH]; intros name st st' H; simpl in H; [done|].
  case_decide; [by inversion H|]. case_decide; [done|].
  destruct (for_each _ _ _) as [s1| |] eqn:E; simpl in H; try done.
  inversion H; subst; simpl.
  apply (for_each_preserves _ temporary_visit_set) in E; [|by eauto].
  simpl in E. rewrite E. set_solver.
Qed.

Lemma for_each_visited (body : string → dfs_state → result dfs_state) (l : list string) :
  (∀ x st st', x ∈ l → body x st = Ok st' → dfs_inv adj st → visited_after adj x st st') →
  ∀ st st', for_each body l st = Ok st' → dfs_inv adj st →
    dfs_inv adj st' ∧
    temporary_visit_set st' = temporary_visit_set st ∧
    (∃ new, ordered_view_names st' = new ++ ordered_view_names st) ∧
    ∀ x, x ∈ l → x ∈ permanent_visit_set st'.
Proof.
  induction l as [|a l IH]; intros Hbody st st' H Hinv; simpl in H.
  - inversion H; subst. split_and!; [done|done|by exists []|]. intros x Hx. by apply elem_of_nil in Hx.
  - destruct (body a st) as [s1| |] eqn:E; simpl in H; try done.
    destruct (Hbody a st s1) as (Hinv1 & Ht1 & [new1 Ho1] & Ha); [left|done|done|].
    destruct (IH (fun x st st' Hx => Hbody x st st' (list_elem_of_further _ _ _ Hx)) s1 st' H Hinv1)
      as (Hinv' & Ht' & [new' Ho'] & Hl).
    split_and!; [done|congruence| |].
    + exists (new' ++ new1). by rewrite Ho', Ho1, (assoc_L (++)).
    + intros x [->|Hx]%elem_of_cons; [|by auto].
      destruct Hinv' as (-> & _). destruct Hinv1 as (Hp1 & _).
      rewrite Hp1 in Ha. rewrite elem_of_list_to_set in Ha |- *.
      rewrite Ho'. set_solver.
Qed.

Lemma visit_visited fuel name st st' :
  visit fuel adj name st = Ok st' → dfs_inv adj st → visited_after adj name st st'.
Proof.
  revert name st st'. induction fuel as [|fuel IH]; intros name st st' H Hinv; simpl in H; [done|].
  case_decide as Hperm.
  { inversion H; subst. split_and!; [done|done|by exists []|done]. }
  case_decide as Htemp; [done|].
  destruct (for_each _ _ _) as [s1| |] eqn:E; simpl in H; try done.
  inversion H; subst; clear H.
  apply for_each_visited in E as (Hinv1 & Ht1 & [new Ho1] & Hadj); [|by eauto|].
  2:{ destruct Hinv as (Hp & Hnd & Hdisj & Hord).
      split_and!; simpl; [done|done|set_solver|done]. }
  simpl in Ht1, Ho1.
  destruct Hinv1 as (Hp1 & Hnd1 & Hdisj1 & Hord1).
  assert (name ∉ permanent_visit_set s1) as Hfresh by set_solver.
  split_and!; simpl.
  - split_and!; simpl.
    + by rewrite Hp1.
    + apply NoDup_cons. split; [|done]. rewrite Hp1, elem_of_list_to_set in Hfresh. done.
    + set_solver.
    + intros l1 v l2 w Heq Hedge. destruct l1 as [|x l1]; simpl in Heq.
      * inversion Heq; subst. specialize (Hadj w Hedge).
        by rewrite Hp1, elem_of_list_to_set in Hadj.
      * inversion Heq; subst. eauto.
  - rewrite Ht1. set_solver.
  - exists (name :: new). by rewrite Ho1.
  - set_solver.
Qed.

(** [visit] raises only when it meets a view of the current path again, and
    every view of the path depends on the view being visited. *)
Lemma visit_raise fuel name st e :
  visit fuel adj name st = Raise e →
  (∀ t, t ∈ temporary_visit_set st → depends_on adj t name) →
  cycle_error adj e.
Proof.
  revert name st. induction fuel as [|fuel IH]; intros name st H Hpath; simpl in H; [done|].
  case_decide as Hperm; [done|]. case_decide as Htemp.
  { inversion H; subst. exists name. split; [done|]. by apply Hpath. }
  destruct (for_each _ _ _) as [s1| |] eqn:E; simpl in H; try done.
  inversion H; subst; clear H.
  apply (for_each_stops _
           (fun s => temporary_visit_set s = {[ name ]} ∪ temporary_visit_set st)) in E
    as (x & s1 & Hx & Hs1 & Hraise); [| |done|done].
  - apply (IH _ _ Hraise). intros t Ht. rewrite Hs1 in Ht.
    apply elem_of_union in Ht as [->%elem_of_singleton|Ht].
    + by apply tc_once.
    + eapply tc_r; [by apply Hpath|done].
  - intros y s s' _ Hs Hy. by rewrite (visit_temp _ _ _ _ Hy).
Qed.

(** The recursion budget: a budget above the number of views that are not
    on the current path is never used up. *)
Lemma visit_fuel (U : gset string) fuel name st :
  (∀ v w, edge adj v w → w ∈ U) →
  name ∈ U →
  size (U ∖ temporary_visit_set st) < fuel →
  visit fuel adj name st ≠ OutOfFuel.
Proof.
  intros Hclosed. revert name st.
  induction fuel as [|fuel IH]; intros name st Hname Hsize; simpl; [lia|].
  case_decide as Hperm; [done|]. case_decide as Htemp; [done|].
  destruct (for_each _ _ _) as [s1| |] eqn:E; simpl; try done.
  apply (for_each_stops _
           (fun s => temporary_visit_set s = {[ name ]} ∪ temporary_visit_set st)) in E
    as (x & s1 & Hx & Hs1 & Hout); [| |done|done].
  - exfalso. apply (IH x s1); [by eapply Hclosed| |done].
    rewrite Hs1.
    assert (U ∖ ({[name]} ∪ temporary_visit_set st) ⊂ U ∖ temporary_visit_set st) as Hsub
      by set_solver.
    apply subset_size in Hsub. lia.
  - intros y s s' _ Hs Hy. by rewrite (visit_temp _ _ _ _ Hy).
Qed.

Lemma dfs_inv_start : dfs_inv adj dfs_start.
Proof.
  split_and!; simpl; [done|constructor|set_solver|].
  intros [|??] ???; simpl; discriminate.
Qed.

Lemma entry_visited fuel name st st' :
  entry fuel adj name st = Ok st' → dfs_inv adj st → visited_after adj name st st'.
Proof.
  unfold entry. case_decide; [|apply visit_visited].
  intros [= <-] Hinv. split_and!; [done|done|by exists []|done].
Qed.

Lemma visit_all_ok fuel names st :
  visit_all fuel adj names = Ok st →
  dfs_inv adj st ∧ ∀ x, x ∈ names → x ∈ permanent_visit_set st.
Proof.
  intros H. apply (for_each_visited (entry fuel adj)) in H as (Hinv & _ & _ & Hall);
    [done| |apply dfs_inv_start].
  intros x s s' _. apply entry_visited.
Qed.

Lemma visit_all_raise fuel names e :
  visit_all fuel adj names = Raise e → cycle_error adj e.
Proof.
  intros H.
  apply (for_each_stops (entry fuel adj) (fun s => temporary_visit_set s = ∅)) in H
    as (x & s1 & _ & Hs1 & Hraise); [| |done|done].
  - unfold entry in Hraise. case_decide; [done|].
    apply (visit_raise _ _ _ _ Hraise). intros t Ht. rewrite Hs1 in Ht. set_solver.
  - intros y s s' _ Hs. unfold entry. case_decide; [by intros [= <-]|].
    intros Hy. by rewrite (visit_temp _ _ _ _ Hy).
Qed.

Lemma visit_all_fuel (U : gset string) fuel names :
  (∀ v w, edge adj v w → w ∈ U) →
  (∀ x, x ∈ names → x ∈ U) →
  size U < fuel →
  visit_all fuel adj names ≠ OutOfFuel.
Proof.
  intros Hclosed Hnames Hsize H.
  apply (for_each_stops (entry fuel adj) (fun s => temporary_visit_set s = ∅)) in H
    as (x & s1 & Hx & Hs1 & Hout); [| |done|done].
  - unfold entry in Hout. case_decide; [done|].
    apply (visit_fuel U fuel x s1); [done|by auto| |done].
    rewrite Hs1. assert (U ∖ ∅ ⊆ U) as Hsub%subseteq_size by set_solver. lia.
  - intros y s s' _ Hs. unfold entry. case_decide; [by intros [= <-]|].
    intros Hy. by rewrite (visit_temp _ _ _ _ Hy).
Qed.

(** In a state the search maintains, a view is deeper in
    [ordered_view_names] than whatever it depends on. *)
Lemma dfs_inv_depends st v w :
  dfs_inv adj st → depends_on adj v w →
  ∀ l1 l2, ordered_view_names st = l1 ++ v :: l2 → w ∈ l2.
Proof.
  intros (_ & _ & _ & Hord) Hdep.
  induction Hdep as [x y Hxy|x y z Hxy Hyz IH]; intros l1 l2 Heq; [by eauto|].
  pose proof (Hord _ _ _ _ Heq Hxy) as (a & b & ->)%list_elem_of_split.
  specialize (IH (l1 ++ x :: a) b). rewrite <- (assoc_L (++)) in IH.
  specialize (IH Heq). set_solver.
Qed.

Lemma earlier_middle (l1 l2 l3 : list string) w v :
  earlier (l1 ++ w :: l2 ++ v :: l3) w v.
Proof.
  exists (length l1), (length (l1 ++ w :: l2)). split_and!.
  - apply list_lookup_middle. done.
  - replace (l1 ++ w :: l2 ++ v :: l3) with ((l1 ++ w :: l2) ++ v :: l3)
      by (by rewrite <- (assoc_L (++))).
    by apply list_lookup_middle.
  - rewrite length_app. simpl. lia.
Qed.

(** The order a completed search returns is a linearisation of the
    dependencies. *)
Lemma visit_all_order fuel names st :
  visit_all fuel adj names = Ok st →
  let order := reverse (ordered_view_names st) in
  NoDup order ∧
  (∀ x, x ∈ names → x ∈ order) ∧
  ∀ v w, v ∈ order → depends_on adj v w → earlier order w v.
Proof.
  intros [Hinv Hall]%visit_all_ok order. subst order. split_and!.
  - rewrite reverse_Permutation. apply Hinv.
  - intros x Hx%Hall. destruct Hinv as (Hp & _). rewrite Hp in Hx.
    rewrite elem_of_list_to_set in Hx. by rewrite elem_of_reverse.
  - intros v w Hv Hdep. rewrite elem_of_reverse in Hv.
    apply list_elem_of_split in Hv as (l1 & l2 & Heq).
    pose proof (dfs_inv_depends _ _ _ Hinv Hdep _ _ Heq) as (a & b & ->)%list_elem_of_split.
    rewrite Heq, reverse_app, reverse_cons, reverse_app, reverse_cons.
    rewrite <- !(assoc_L (++)). simpl. apply earlier_middle.
Qed.

(** A search that completes on a graph whose edges start at visited names
    has met no cycle. *)
Lemma visit_all_acyclic fuel names st :
  (∀ v w, edge adj v w → v ∈ names) →
  visit_all fuel adj names = Ok st → acyclic adj.
Proof.
  intros Hsrc [Hinv Hall]%visit_all_ok v Hdep.
  assert (v ∈ names) as Hv.
  { inversion Hdep; subst; by eapply Hsrc. }
  apply Hall in Hv. pose proof Hinv as (Hp & Hnd & _).
  rewrite Hp, elem_of_list_to_set in Hv.
  apply list_elem_of_split in Hv as (l1 & l2 & Heq).
  pose proof (dfs_inv_depends _ _ _ Hinv Hdep _ _ Heq) as Hin.
  rewrite Heq in Hnd. apply NoDup_app in Hnd as (_ & _ & Hnd).
  apply NoDup_cons in Hnd as [Hnd _]. done.
Qed.

End dfs.


(** ** The graph of a context *)

Lemma dict_get_elem {V} (k : string) (v : V) (d : list (string * V)) :
  dict_get k d = Some v → (k, v) ∈ d.
Proof.
  induction d as [|[k' v'] d IH]; simpl; [done|].
  case_decide; [intros [= ->]; subst; left|right; auto].
Qed.

Lemma view_names_elem ctx k v : (k, v) ∈ views ctx → view_name v ∈ view_names ctx.
Proof. intros H. unfold view_names. by apply (list_elem_of_fmap_2' _ _ (k, v)). Qed.

(** Every object of a dependency set is a loaded view. *)
Lemma view_dependencies_loaded ctx v deps :
  view_dependencies ctx v = Ok deps →
  ∀ k d, deps !! k = Some d → dict_get k (views ctx) = Some d.
Proof.
  unfold view_dependencies.
  destruct (negb (is_derived_table v)); [by intros [= <-] k d; rewrite lookup_empty|].
  destruct (is_persisted_derived_table v); [|by intros [= <-] k d; rewrite lookup_empty].
  destruct (vo_derived_table v ≫= dt_sql) as [sql|]; [|done].
  intros H.
  eapply (for_each_inv _ (fun deps => ∀ k d, deps !! k = Some d →
                                             dict_get k (views ctx) = Some d));
    [|by intros k d; rewrite lookup_empty|exact H].
  intros param s s' _ Hs. cbv beta.
  destruct (unpack_pair (split "."%char param)) as [[name field]| |]; simpl; try done.
  destruct (dict_get name (views ctx)) as [dep|] eqn:E; [|done].
  intros [= <-] k d [[-> ->]|[_ ?]]%lookup_insert_Some; auto.
Qed.

Lemma adjacent_append k x adj v :
  adjacent (adjacency_append k x adj) v =
  if decide (k = v) then adjacent adj k ++ [x] else adjacent adj v.
Proof.
  unfold adjacent, adjacency_append. rewrite lookup_insert.
  by case_decide; subst.
Qed.

(** The edges of the graph go from loaded views to loaded views. *)
Lemma build_adjacency_lists_edges ctx adj :
  build_adjacency_lists ctx = Ok adj →
  ∀ v w, edge adj v w → v ∈ view_names ctx ∧ w ∈ view_names ctx.
Proof.
  unfold build_adjacency_lists. intros H.
  eapply (for_each_inv _ (fun a => ∀ v w, edge a v w →
                                          v ∈ view_names ctx ∧ w ∈ view_names ctx));
    [| |exact H].
  2:{ intros v w. unfold edge, adjacent. rewrite lookup_empty. simpl. by intros ?%elem_of_nil. }
  intros [k v0] a a' Hin Ha.
  destruct (view_dependencies ctx v0) as [deps| |] eqn:E; simpl; try done.
  intros [= <-].
  assert (∀ d, d ∈ dependency_objects deps → view_name d ∈ view_names ctx) as Hdeps.
  { intros d (kd & -> & Hd)%list_elem_of_fmap. destruct kd as [kd d].
    apply elem_of_map_to_list in Hd. simpl.
    eapply view_names_elem, dict_get_elem, view_dependencies_loaded; done. }
  revert a Ha. induction (dependency_objects deps) as [|d l IH]; intros a Ha; simpl; [done|].
  apply IH; [intros; apply Hdeps; by right|].
  intros v w. unfold edge. rewrite adjacent_append. case_decide as Hk.
  - subst v. intros [Hw| ->%list_elem_of_singleton]%elem_of_app.
    + by apply Ha.
    + split; [by eapply view_names_elem|apply Hdeps; left].
  - apply Ha.
Qed.

Lemma size_list_to_set_le (l : list string) : size (list_to_set l : gset string) ≤ length l.
Proof.
  induction l as [|x l IH].
  - by rewrite list_to_set_nil, size_empty.
  - rewrite list_to_set_cons, size_union_alt, size_singleton.
    assert (list_to_set l ∖ {[x]} ⊆ (list_to_set l : gset string)) as H%subseteq_size
      by set_solver.
    simpl. lia.
Qed.

(** The order computation always ends within its recursion budget. *)
Lemma view_topological_order_total ctx : view_topological_order ctx ≠ OutOfFuel.
Proof.
  unfold view_topological_order.
  destruct (build_adjacency_lists ctx) as [adj| |] eqn:E; simpl; [|done|].
  - destruct (visit_all _ _ _) as [st| |] eqn:V; simpl; try done.
    exfalso. revert V.
    apply (visit_all_fuel adj (list_to_set (view_names ctx))).
    + intros v w Hvw. rewrite elem_of_list_to_set.
      by eapply build_adjacency_lists_edges.
    + intros x Hx. by rewrite elem_of_list_to_set.
    + pose proof (size_list_to_set_le (view_names ctx)) as Hle.
      assert (length (view_names ctx) = length (views ctx)) as Hlen
        by apply length_fmap.
      unfold recursion_budget. lia.
  - exfalso. revert E. unfold build_adjacency_lists.
    intros (x & a & _ & _ & Hx)%(for_each_stops _ (fun _ => True)); [|done|done|done].
    destruct x as [k v]. destruct (view_dependencies ctx v) as [deps| |] eqn:D; try done.
    revert D. unfold view_dependencies.
    destruct (negb _); [done|]. destruct (is_persisted_derived_table v); [|done].
    destruct (_ ≫= _); [|done].
    intros (p & d & _ & _ & Hp)%(for_each_stops _ (fun _ => True)); [|done|done|done].
    destruct (unpack_pair _) as [[name field]| |] eqn:U; simpl in Hp; try done.
    + by destruct (dict_get name (views ctx)).
    + unfold unpack_pair in U. by repeat case_match.
Qed.

(** ** The graph and the references *)

Lemma dependency_objects_elem deps d :
  d ∈ dependency_objects deps ↔ ∃ kd, deps !! kd = Some d.
Proof.
  unfold dependency_objects. rewrite list_elem_of_fmap. split.
  - intros ([kd d'] & -> & Hd). exists kd. by apply elem_of_map_to_list.
  - intros [kd Hd]. exists (kd, d). split; [done|]. by apply elem_of_map_to_list.
Qed.

Lemma adjacency_append_edge n x a0 a b :
  edge (adjacency_append n x a0) a b ↔ edge a0 a b ∨ (a = n ∧ b = x).
Proof.
  unfold edge. rewrite adjacent_append. case_decide as Hn.
  - subst. rewrite elem_of_app, list_elem_of_singleton. naive_solver.
  - naive_solver.
Qed.

Lemma fold_append_edges n (l : list view_object) a0 a b :
  edge (fold_left (fun acc d => adjacency_append n (view_name d) acc) l a0) a b ↔
  edge a0 a b ∨ (a = n ∧ ∃ d, d ∈ l ∧ view_name d = b).
Proof.
  revert a0. induction l as [|d l IH]; intros a0; simpl.
  - split; [by left|]. intros [H|(_ & d & Hd & _)]; [done|by apply elem_of_nil in Hd].
  - rewrite IH, adjacency_append_edge. split.
    + intros [[H|[-> ->]]|(-> & d' & Hd' & <-)].
      * by left.
      * right. split; [done|]. exists d. split; [left|done].
      * right. split; [done|]. exists d'. split; [by right|done].
    + intros [H|(-> & d' & [->|Hd']%elem_of_cons & <-)].
      * by left; left.
      * left; right. done.
      * right. split; [done|]. by exists d'.
Qed.

(** The adjacency lists hold the references of the views, and nothing
    else. *)
Lemma adjacency_refers ctx adj :
  build_adjacency_lists ctx = Ok adj → ∀ a b, edge adj a b ↔ refers ctx a b.
Proof.
  unfold build_adjacency_lists, refers.
  assert (∀ (l : list (string * view_object)) a0 adj,
    for_each
      (fun '(_, v) adjacency_lists =>
         bind_result (view_dependencies ctx v) (fun deps =>
         Ok (fold_left
               (fun adjacency_lists view_dependency =>
                  adjacency_append (view_name v) (view_name view_dependency) adjacency_lists)
               (dependency_objects deps) adjacency_lists))) l a0 = Ok adj →
    ∀ a b, edge adj a b ↔
      edge a0 a b ∨
      ∃ k vo deps kd d, (k, vo) ∈ l ∧ view_name vo = a ∧
        view_dependencies ctx vo = Ok deps ∧ deps !! kd = Some d ∧ view_name d = b) as Hgen.
  { induction l as [|[k vo] l IH]; intros a0 adj' H a b; simpl in H.
    - inversion H; subst. split; [by left|].
      intros [?|(? & ? & ? & ? & ? & Hin & _)]; [done|by apply elem_of_nil in Hin].
    - destruct (view_dependencies ctx vo) as [deps| |] eqn:E; simpl in H; try done.
      rewrite (IH _ _ H), fold_append_edges. split.
      + intros [[?|(-> & d & Hd & <-)]|(k' & vo' & deps' & kd & d & Hin & ?)].
        * by left.
        * apply dependency_objects_elem in Hd as [kd Hd].
          right. exists k, vo, deps, kd, d. split_and!; [left|done..].
        * right. exists k', vo', deps', kd, d. split; [by right|done].
      + intros [?|(k' & vo' & deps' & kd & d & [[= -> ->]|Hin]%elem_of_cons & <- & Hd' & Hkd & <-)].
        * by left; left.
        * left; right. split; [done|]. exists d. split; [|done].
          apply dependency_objects_elem. exists kd. congruence.
        * right. exists k', vo', deps', kd, d. by split_and!. }
  intros H a b. rewrite (Hgen _ _ _ H). split; [|by right].
  intros [Hempty|?]; [|done]. unfold edge, adjacent in Hempty.
  rewrite lookup_empty in Hempty. by apply elem_of_nil in Hempty.
Qed.

Lemma tc_iff {A} (R S : relation A) :
  (∀ a b, R a b ↔ S a b) → ∀ a b, tc R a b ↔ tc S a b.
Proof.
  intros HRS a b. split; intros H.
  - induction H as [a b H|a b c H _ IH]; [apply tc_once|eapply tc_l; [|exact IH]]; by apply HRS.
  - induction H as [a b H|a b c H _ IH]; [apply tc_once|eapply tc_l; [|exact IH]]; by apply HRS.
Qed.

Lemma depends_on_refers ctx adj :
  build_adjacency_lists ctx = Ok adj → ∀ a b, depends_on adj a b ↔ tc (refers ctx) a b.
Proof. intros H. apply tc_iff. by apply adjacency_refers. Qed.

(** The adjacency lists can be built exactly when every dependency set can
    be read. *)
Lemma build_readable ctx adj : build_adjacency_lists ctx = Ok adj → readable ctx.
Proof.
  unfold build_adjacency_lists, readable. generalize (∅ : gmap string (list string)) as a0.
  induction (views ctx) as [|[k0 v0] l IH]; intros a0 H k vo Hin; simpl in H.
  - by apply elem_of_nil in Hin.
  - destruct (view_dependencies ctx v0) as [deps| |] eqn:E; simpl in H; try done.
    apply elem_of_cons in Hin as [[= -> ->]|Hin]; [by exists deps|by eapply IH].
Qed.

Lemma readable_build ctx : readable ctx → ∃ adj, build_adjacency_lists ctx = Ok adj.
Proof.
  unfold build_adjacency_lists, readable. generalize (∅ : gmap string (list string)) as a0.
  induction (views ctx) as [|[k0 v0] l IH]; intros a0 H; simpl; [by eexists|].
  destruct (H k0 v0) as [deps ->]; [left|]. simpl.
  apply IH. intros k vo Hin. apply (H k vo). by right.
Qed.

(** ** The order of the views *)

Lemma ranked_acyclic (adj : gmap string (list string)) (rank : string → nat) :
  (∀ v w, edge adj v w → rank w < rank v) → acyclic adj.
Proof.
  intros Hrank v Hdep.
  assert (∀ a b, depends_on adj a b → rank b < rank a) as Hlt.
  { intros a b H. induction H as [a b H|a b c H _ IH]; [by apply Hrank|].
    apply Hrank in H. lia. }
  apply Hlt in Hdep. lia.
Qed.

Lemma edge_listed (adj : gmap string (list string)) v w :
  edge adj v w → ∃ l, (v, l) ∈ map_to_list adj ∧ w ∈ l.
Proof.
  unfold edge, adjacent. destruct (adj !! v) as [l|] eqn:E; simpl.
  - exists l. by rewrite elem_of_map_to_list.
  - by intros ?%elem_of_nil.
Qed.

Lemma ctx_chain_graph : build_adjacency_lists ctx_chain = Ok (graph_of ctx_chain).
Proof. by vm_compute. Qed.

Lemma ctx_chain_acyclic : acyclic (graph_of ctx_chain).
Proof.
  apply (ranked_acyclic _ rank_chain). intros v w (l & Hl & Hw)%edge_listed.
  assert (map_to_list (graph_of ctx_chain) = [("der1", ["base"]); ("der2", ["der1"])]) as Heq
    by (by vm_compute).
  rewrite Heq in Hl. set_unfold.
  destruct Hl as [[= -> ->]|[[= -> ->]|[]]]; set_unfold; destruct_or?; subst; try done;
    vm_compute; lia.
Qed.

Lemma ctx_chain_readable : readable ctx_chain.
Proof. exact (build_readable _ _ ctx_chain_graph). Qed.

Lemma ctx_chain_acyclic_references : acyclic_references ctx_chain.
Proof.
  intros v Hv. apply (ctx_chain_acyclic v). by apply (depends_on_refers _ _ ctx_chain_graph).
Qed.

(** The references of the chain are the ones its templates show. *)
Lemma ctx_chain_references :
  refers ctx_chain "der2" "der1" ∧ refers ctx_chain "der1" "base" ∧
  ¬ refers ctx_chain "base" "der1".
Proof.
  rewrite <- !(adjacency_refers _ _ ctx_chain_graph). unfold edge. split_and!.
  - apply list_elem_of_In. vm_compute. auto.
  - apply list_elem_of_In. vm_compute. auto.
  - intros H%list_elem_of_In. vm_compute in H. done.
Qed.

Lemma ctx_cycle_graph : build_adjacency_lists ctx_cycle = Ok (graph_of ctx_cycle).
Proof. by vm_compute. Qed.

Lemma ctx_cycle_readable : readable ctx_cycle.
Proof. exact (build_readable _ _ ctx_cycle_graph). Qed.

Lemma ctx_cycle_cyclic : ∃ v, tc (refers ctx_cycle) v v.
Proof.
  exists "A". apply (depends_on_refers _ _ ctx_cycle_graph).
  apply tc_l with "B"; [|apply tc_once]; unfold edge;
    apply list_elem_of_In; vm_compute; auto.
Qed.

(** The order and the references: when every dependency set can be read,
    the outcome of [view_topological_order] is either an order in which
    whatever a view refers to, directly or through other views, stands
    before it, or the error that names a view referring to itself. *)
Lemma view_topological_order_outcome ctx :
  readable ctx →
  (∃ order,
     view_topological_order ctx = Ok order ∧
     acyclic_references ctx ∧
     NoDup order ∧
     (∀ v, v ∈ view_names ctx → v ∈ order) ∧
     ∀ v w, v ∈ order → tc (refers ctx) v w → earlier order w v) ∨
  (∃ v,
     view_topological_order ctx =
       Raise (Exception ("Views contain a circular dependency " +:+ v)) ∧
     tc (refers ctx) v v).
Proof.
  intros [adj Hadj]%readable_build.
  pose proof (view_topological_order_total ctx) as Htotal.
  unfold view_topological_order in *. rewrite Hadj in *. simpl in *.
  destruct (visit_all _ _ _) as [st|e|] eqn:V; simpl in *; [left|right|done].
  - exists (reverse (ordered_view_names st)).
    destruct (visit_all_order _ _ _ _ V) as (Hnd & Hall & Hord).
    split_and!; [done| |done|done|].
    + intros v Hv. apply (depends_on_refers _ _ Hadj) in Hv. revert v Hv.
      apply (visit_all_acyclic _ _ _ _ (fun a b Hab =>
               proj1 (build_adjacency_lists_edges _ _ Hadj a b Hab)) V).
    + intros v w Hv Hdep. apply Hord; [done|]. by apply (depends_on_refers _ _ Hadj).
  - apply visit_all_raise in V as (v & -> & Hv). exists v. split; [done|].
    by apply (depends_on_refers _ _ Hadj).
Qed.

(** C1: three views with acyclic references, [c] reading [a] and [b] on one
    line: [view_topological_order] returns no order, because reading the
    dependency set of [c] raises [ValueError]; with the two references on two
    lines the order is returned and has [c] last. *)
Theorem acyclic_views_get_no_order :
  view_dependencies (ctx_ab one_line) (pdt "c" one_line "select 1") =
    Raise (ValueError "too many values to unpack (expected 2)") ∧
  view_topological_order (ctx_ab one_line) =
    Raise (ValueError "too many values to unpack (expected 2)") ∧
  view_topological_order (ctx_ab two_lines) = Ok ["a"; "b"; "c"].
Proof. repeat split; vm_compute; reflexivity. Qed.

(** C3: three views with a cycle, [A] reading [B] and [C] on one line and
    [B] reading [A]: [view_topological_order] and [trigger_all] raise
    [ValueError], not the error of the cycle, and nothing is sent to the
    warehouse; with the two references of [A] on two lines the error of the
    cycle is raised. *)
Theorem cycle_hidden_by_unpacking_error :
  view_topological_order ctx_cycle_one_line =
    Raise (ValueError "too many values to unpack (expected 2)") ∧
  trigger_all ctx_cycle_one_line (start [] ∅) =
    (Raise (ValueError "too many values to unpack (expected 2)"), start [] ∅) ∧
  view_topological_order ctx_cycle_two_lines =
    Raise (Exception "Views contain a circular dependency A").
Proof. repeat split; vm_compute; reflexivity. Qed.

(** ** Queries *)

(** Unfolding of the monad, for evaluating a run step by step. *)
Ltac run :=
  unfold mbind, M_bind, bind, try_except, lift, ret, raise, execute,
    first_row_first_column; simpl.

Section queries.
Context {conn : Connection}.

Lemma get_latest_sql_trigger_value_run v (s : State) query result d :
  sql_trigger_value v = Ok query →
  conn_execute query (db s) = (inr result, d) →
  get_latest_sql_trigger_value v s =
    (if (0 <? rowcount result)%Z then
       match rows result with
       | (x :: _) :: _ => Ok x
       | [] :: _ => Raise (IndexError "row index out of range")
       | [] => Ok VNone
       end
     else Raise (Exception "Looker `sql_trigger_value` query did not return any value"),
     log (EExecute query) d s).
Proof.
  intros Hq He. unfold get_latest_sql_trigger_value. run. rewrite Hq, He. simpl.
  destruct (0 <? rowcount result)%Z; [|done].
  by destruct (rows result) as [|[|x row] rest].
Qed.

Lemma has_table_run ctx table schema (s : State) sql result d :
  _has_table_sql ctx table schema = Ok sql →
  conn_execute sql (db s) = (inr result, d) →
  has_table ctx table schema s =
    (if (0 <? rowcount result)%Z then
       match rows result with
       | (x :: _) :: _ => Ok x
       | [] :: _ => Raise (IndexError "row index out of range")
       | [] => Ok VNone
       end
     else Raise (Exception "Has table sql returned no result"),
     log (EExecute sql) d s).
Proof.
  intros Hq He. unfold has_table. run. rewrite Hq, He. simpl.
  destruct (0 <? rowcount result)%Z; [|done].
  by destruct (rows result) as [|[|x row] rest].
Qed.

(** C7: for a persisted derived table whose trigger query the warehouse
    answers, with a row count that is the number of rows,
    [get_latest_sql_trigger_value] raises its error when there is no row and
    returns the first column of the first row when there is one. *)
Theorem trigger_query_first_scalar v (s : State) query result d :
  is_persisted_derived_table v = true →
  sql_trigger_value v = Ok query →
  conn_execute query (db s) = (inr result, d) →
  rowcount result = Z.of_nat (length (rows result)) →
  (get_latest_sql_trigger_value v s).1 =
    match rows result with
    | [] => Raise (Exception "Looker `sql_trigger_value` query did not return any value")
    | (x :: _) :: _ => Ok x
    | [] :: _ => Raise (IndexError "row index out of range")
    end.
Proof.
  intros _ Hq He Hcount. rewrite (get_latest_sql_trigger_value_run _ _ _ _ _ Hq He). simpl.
  destruct (rows result) as [|row rest]; simpl in Hcount.
  - by rewrite Hcount.
  - replace (0 <? rowcount result)%Z with true by (symmetry; apply Z.ltb_lt; lia).
    by destruct row.
Qed.

(** C10: when the trigger query returns more than one row, no error is
    raised and the value is the first column of the first row, whatever the
    other rows are; and so it is, apart from the trigger query, when the query
    for the existence of the table returns more than one row. *)
Theorem extra_rows_ignored ctx :
  (∀ v (s : State) query result d x row second rest,
     sql_trigger_value v = Ok query →
     conn_execute query (db s) = (inr result, d) →
     rowcount result = Z.of_nat (length (rows result)) →
     rows result = (x :: row) :: second :: rest →
     get_latest_sql_trigger_value v s = (Ok x, log (EExecute query) d s)) ∧
  (∀ table schema (s : State) sql result d x row second rest,
     _has_table_sql ctx table schema = Ok sql →
     conn_execute sql (db s) = (inr result, d) →
     rowcount result = Z.of_nat (length (rows result)) →
     rows result = (x :: row) :: second :: rest →
     has_table ctx table schema s = (Ok x, log (EExecute sql) d s)).
Proof.
  split.
  - intros v s query result d x row second rest Hq He Hcount Hrows.
    rewrite (get_latest_sql_trigger_value_run _ _ _ _ _ Hq He).
    rewrite Hrows in *. simpl in Hcount.
    by replace (0 <? rowcount result)%Z with true by (symmetry; apply Z.ltb_lt; lia).
  - intros table schema s sql result d x row second rest Hsql He Hcount Hrows.
    rewrite (has_table_run _ _ _ _ _ _ _ Hsql He).
    rewrite Hrows in *. simpl in Hcount.
    by replace (0 <? rowcount result)%Z with true by (symmetry; apply Z.ltb_lt; lia).
Qed.

End queries.

(** ** One view *)

Section one_view.
Context {conn : Connection}.

Lemma pdt_is_derived v : is_persisted_derived_table v = true → is_derived_table v = true.
Proof.
  unfold is_persisted_derived_table, is_derived_table. by destruct (vo_derived_table v).
Qed.

Lemma pdt_table v :
  is_persisted_derived_table v = true → sql_table_name v = Ok ("_" +:+ view_name v).
Proof. intros H%pdt_is_derived. unfold sql_table_name. by rewrite H. Qed.

Lemma pdt_schema ctx v :
  is_persisted_derived_table v = true → sql_schema_name ctx v = Ok "looker_scratch".
Proof. intros H%pdt_is_derived. unfold sql_schema_name. by rewrite H. Qed.

(** The staleness check when the warehouse answers both of its queries
    with a first scalar. *)
Lemma check_staleness_exists ctx v (s : State) q1 r1 d1 has q2 r2 d2 latest :
  is_persisted_derived_table v = true →
  _has_table_sql ctx ("_" +:+ view_name v) "looker_scratch" = Ok q1 →
  conn_execute q1 (db s) = (inr r1, d1) →
  (0 < rowcount r1)%Z →
  head (rows r1) ≫= head = Some has →
  truthy has = true →
  sql_trigger_value v = Ok q2 →
  conn_execute q2 d1 = (inr r2, d2) →
  (0 < rowcount r2)%Z →
  head (rows r2) ≫= head = Some latest →
  check_staleness ctx v s =
    (Ok (is_not_None (default VNone (files s !! _pickle_path v)) &&
         py_eq (default VNone (files s !! _pickle_path v)) latest,
         Some latest),
     log (EExecute q2) d2 (log (EExecute q1) d1 s)).
Proof.
  intros Hpdt Hq1 He1 Hc1 Hh1 Hhas Hq2 He2 Hc2 Hh2.
  unfold check_staleness. run. rewrite (pdt_table _ Hpdt), (pdt_schema _ _ Hpdt).
  rewrite (has_table_run _ _ _ _ _ _ _ Hq1 He1).
  apply Z.ltb_lt in Hc1, Hc2. rewrite Hc1.
  destruct (rows r1) as [|[|x1 row1] rest1]; simplify_eq/=. rewrite Hhas.
  rewrite (get_latest_sql_trigger_value_run v (log (EExecute q1) d1 s) q2 r2 d2 Hq2 He2).
  rewrite Hc2.
  destruct (rows r2) as [|[|x2 row2] rest2]; simplify_eq/=.
  unfold trigger_value. simpl.
  destruct (is_not_None _); simpl; [|done]. by destruct (py_eq _ _).
Qed.

(** C8, for a stored value other than [None]: for a persisted derived
    table whose physical table exists and whose stored trigger value is not
    [None] and equals the value the trigger query returns, [trigger_view] returns normally after the two
    queries alone: no regeneration statement is executed and the stored
    trigger values are unchanged. *)
Theorem fresh_view_untouched ctx v (s : State) q1 r1 d1 has q2 r2 d2 latest stored :
  is_persisted_derived_table v = true →
  _has_table_sql ctx ("_" +:+ view_name v) "looker_scratch" = Ok q1 →
  conn_execute q1 (db s) = (inr r1, d1) →
  (0 < rowcount r1)%Z →
  head (rows r1) ≫= head = Some has →
  truthy has = true →
  sql_trigger_value v = Ok q2 →
  conn_execute q2 d1 = (inr r2, d2) →
  (0 < rowcount r2)%Z →
  head (rows r2) ≫= head = Some latest →
  files s !! _pickle_path v = Some stored →
  stored ≠ VNone →
  py_eq stored latest = true →
  trigger_view ctx v s =
    (Ok tt, {| db := d2; files := files s;
               trace := trace s ++ [EExecute q1; EExecute q2];
               transaction := transaction s |}).
Proof.
  intros Hpdt Hq1 He1 Hc1 Hh1 Hhas Hq2 He2 Hc2 Hh2 Hstored Hnone Heq.
  unfold trigger_view. rewrite Hpdt. run.
  rewrite (check_staleness_exists _ _ _ _ _ _ _ _ _ _ _
             Hpdt Hq1 He1 Hc1 Hh1 Hhas Hq2 He2 Hc2 Hh2).
  rewrite Hstored. simpl. rewrite Heq.
  destruct stored; [done|..]; simpl; unfold log; simpl; by rewrite <- (assoc_L (++)).
Qed.

(** C2: for a persisted derived table whose physical table does not exist,
    [trigger_view] skips the trigger query, executes the regeneration
    statement, and then raises [UnboundLocalError] for
    [latest_trigger_value]: no trigger value is stored. *)
Theorem missing_table_stores_nothing ctx v (s : State) q1 r1 d1 has q3 r3 d3 :
  is_persisted_derived_table v = true →
  _has_table_sql ctx ("_" +:+ view_name v) "looker_scratch" = Ok q1 →
  conn_execute q1 (db s) = (inr r1, d1) →
  (0 < rowcount r1)%Z →
  head (rows r1) ≫= head = Some has →
  truthy has = false →
  regenerate_derived_table_sql ctx v = Ok q3 →
  conn_execute q3 d1 = (inr r3, d3) →
  trigger_view ctx v s =
    (Raise (UnboundLocalError "latest_trigger_value"),
     {| db := d3; files := files s;
        trace := trace s ++ [EExecute q1; EExecute q3];
        transaction := transaction s |}).
Proof.
  intros Hpdt Hq1 He1 Hc1 Hh1 Hhas Hq3 He3.
  unfold trigger_view, check_staleness, regenerate_persisted_derived_table.
  rewrite Hpdt. run. rewrite (pdt_table _ Hpdt), (pdt_schema _ _ Hpdt).
  rewrite (has_table_run _ _ _ _ _ _ _ Hq1 He1).
  apply Z.ltb_lt in Hc1. rewrite Hc1.
  destruct (rows r1) as [|[|x1 row1] rest1]; simplify_eq/=. rewrite Hhas.
  rewrite Hq3. simpl. rewrite He3. simpl.
  unfold log; simpl. by rewrite <- (assoc_L (++)).
Qed.

End one_view.

(** ** Traces *)

Lemma app_split_at {A} (l1 l2 pre post : list A) (a : A) :
  l1 ++ l2 = pre ++ a :: post →
  (∃ m, l1 = pre ++ a :: m ∧ post = m ++ l2) ∨ (∃ m, pre = l1 ++ m ∧ l2 = m ++ a :: post).
Proof.
  revert pre. induction l1 as [|b l1 IH]; intros pre H; simpl in H.
  - right. by exists pre.
  - destruct pre as [|c pre]; simpl in H.
    + inversion H; subst. left. by exists l1.
    + inversion H as [[Hb Heq]]; subst. destruct (IH _ Heq) as [(m & -> & ->)|(m & -> & ->)].
      * left. by exists m.
      * right. by exists m.
Qed.

Lemma only_executes_no_dump evs pre p x post :
  only_executes evs → evs ≠ pre ++ EPickleDump p x :: post.
Proof.
  intros H ->. apply Forall_app in H as [_ H]. apply Forall_cons in H as [[sql H] _]. done.
Qed.

Lemma only_executes_app a b : only_executes a → only_executes b → only_executes (a ++ b).
Proof. intros. by apply Forall_app. Qed.

Lemma stored_within_none ctx evs :
  (∀ pre p x post, evs ≠ pre ++ EPickleDump p x :: post) → stored_within_transaction ctx evs.
Proof. intros H pre p x post Heq. by destruct (H pre p x post). Qed.

Lemma stored_within_app ctx a b :
  stored_within_transaction ctx a → stored_within_transaction ctx b →
  stored_within_transaction ctx (a ++ b).
Proof.
  intros Ha Hb pre p x post [(m & -> & ->)|(m & -> & ->)]%app_split_at.
  - destruct (Ha _ _ _ _ eq_refl) as (name & v & sql & pre' & post' & ? & ? & ? & ? & ->).
    exists name, v, sql, pre', (post' ++ b). by split_and!.
  - destruct (Hb _ _ _ _ eq_refl) as (name & v & sql & pre' & post' & ? & ? & ? & -> & ?).
    exists name, v, sql, (a ++ pre'), post'. rewrite <- (assoc_L (++)). by split_and!.
Qed.

Lemma stored_within_frame ctx name v sql pre x :
  dict_get name (views ctx) = Some v →
  regenerate_derived_table_sql ctx v = Ok sql →
  only_executes pre →
  stored_within_transaction ctx
    (pre ++ [EExecute sql; EPickleDump (_pickle_path v) x] ++ [ECommit]).
Proof.
  intros Hv Hsql Hpre pre0 p y post [(m & Hm & _)|(m & -> & Hm)]%app_split_at.
  - by destruct (only_executes_no_dump _ _ _ _ _ Hpre Hm).
  - destruct m as [|e1 [|e2 [|e3 m]]]; simplify_eq/=.
    + exists name, v, sql, pre, []. by split_and!.
    + by destruct m.
Qed.

Section traces.
Context {conn : Connection}.

Lemma quiet_lift {A} (r : result A) : quiet (lift r).
Proof.
  intros s. exists []. split_and!; [by rewrite (right_id_L [] (++))|constructor|done|done].
Qed.

Lemma quiet_ret {A} (a : A) : quiet (ret a).
Proof. apply (quiet_lift (Ok a)). Qed.

Lemma quiet_raise {A} (e : exn) : quiet (raise (A:=A) e).
Proof. apply (quiet_lift (Raise e)). Qed.

Lemma quiet_execute sql : quiet (execute sql).
Proof.
  intros s. exists [EExecute sql]. unfold execute.
  destruct (conn_execute sql (db s)) as [a d]. simpl.
  split_and!; [done| |done|done]. repeat constructor. by exists sql.
Qed.

Lemma quiet_bind {A B} (m : M A) (k : A → M B) :
  quiet m → (∀ a, quiet (k a)) → quiet (m ≫= k).
Proof.
  intros Hm Hk s. destruct (Hm s) as (evs & Ht & Hev & Hf & Htx).
  unfold mbind, M_bind, bind. destruct (m s) as [[a|e|] s1]; simpl in *.
  - destruct (Hk a s1) as (evs' & Ht' & Hev' & Hf' & Htx').
    exists (evs ++ evs'). split_and!; [|by apply only_executes_app|congruence|congruence].
    by rewrite Ht', Ht, (assoc_L (++)).
  - by exists evs.
  - by exists evs.
Qed.

Lemma quiet_first (result : ResultProxy) : quiet (first_row_first_column result).
Proof.
  unfold first_row_first_column.
  destruct (rows result) as [|[|x row] rest];
    [apply quiet_ret|apply quiet_raise|apply quiet_ret].
Qed.

Lemma quiet_trigger_value v : quiet (trigger_value v).
Proof.
  intros s. exists []. split_and!; [by rewrite (right_id_L [] (++))|constructor|done|done].
Qed.

Lemma quiet_has_table ctx table schema : quiet (has_table ctx table schema).
Proof.
  unfold has_table. apply quiet_bind; [apply quiet_lift|intros sql].
  apply quiet_bind; [apply quiet_execute|intros result].
  destruct (0 <? rowcount result)%Z; [apply quiet_first|apply quiet_raise].
Qed.

Lemma quiet_get_latest v : quiet (get_latest_sql_trigger_value v).
Proof.
  unfold get_latest_sql_trigger_value. apply quiet_bind; [apply quiet_lift|intros sql].
  apply quiet_bind; [apply quiet_execute|intros result].
  destruct (0 <? rowcount result)%Z; [apply quiet_first|apply quiet_raise].
Qed.

Lemma quiet_check_staleness ctx v : quiet (check_staleness ctx v).
Proof.
  unfold check_staleness. apply quiet_bind; [apply quiet_lift|intros table].
  apply quiet_bind; [apply quiet_lift|intros schema].
  apply quiet_bind; [apply quiet_has_table|intros has].
  destruct (truthy has); [|apply quiet_ret].
  apply quiet_bind; [apply quiet_get_latest|intros latest].
  apply quiet_bind; [apply quiet_trigger_value|intros stored].
  destruct (is_not_None stored); [|apply quiet_ret].
  apply quiet_bind; [apply quiet_trigger_value|intros stored'].
  destruct (py_eq stored' latest); apply quiet_ret.
Qed.

(** What [trigger_view] does to the outside: statements only, or statements
    that end with the regeneration statement, followed, on a normal return,
    by the writing of the trigger value. *)
Lemma trigger_view_events ctx v (s : State) :
  ∃ evs,
    trace (trigger_view ctx v s).2 = trace s ++ evs ∧
    transaction (trigger_view ctx v s).2 = transaction s ∧
    (only_executes evs ∨
     ∃ sql pre x,
       (trigger_view ctx v s).1 = Ok tt ∧
       regenerate_derived_table_sql ctx v = Ok sql ∧
       only_executes pre ∧
       evs = pre ++ [EExecute sql; EPickleDump (_pickle_path v) x]).
Proof.
  unfold trigger_view. destruct (negb (is_persisted_derived_table v)).
  { exists []. simpl. rewrite (right_id_L [] (++)). split_and!; [done|done|]. left. constructor. }
  destruct (quiet_check_staleness ctx v s) as (evs & Ht & Hev & _ & Htx).
  unfold try_except, mbind, M_bind, bind.
  destruct (check_staleness ctx v s) as [[[fresh latest]|e|] s1]; simpl in *;
    [|exists evs; split_and!; [done|done|by left]..].
  destruct fresh; [exists evs; split_and!; [done|done|by left]|].
  unfold regenerate_persisted_derived_table, mbind, M_bind, bind, lift.
  destruct (regenerate_derived_table_sql ctx v) as [sql|e|] eqn:Hsql; simpl;
    [|exists evs; split_and!; [done|done|by left]..].
  destruct (quiet_execute sql s1) as (evs1 & Ht1 & Hev1 & _ & Htx1).
  assert (evs1 = [EExecute sql]) as ->.
  { unfold execute in Ht1. destruct (conn_execute sql (db s1)); simpl in Ht1.
    by apply (inj (app (trace s1))) in Ht1. }
  destruct (execute sql s1) as [[r|e|] s2]; simpl in *;
    [|exists (evs ++ [EExecute sql]); split_and!;
        [by rewrite Ht1, Ht, (assoc_L (++))|congruence|left; by apply only_executes_app]..].
  destruct latest as [x|]; simpl.
  - exists (evs ++ [EExecute sql; EPickleDump (_pickle_path v) x]).
    split_and!; [|congruence|].
    + rewrite Ht1, Ht, <- !(assoc_L (++)). done.
    + right. exists sql, evs, x. by split_and!.
  - exists (evs ++ [EExecute sql]). split_and!;
      [by rewrite Ht1, Ht, (assoc_L (++))|congruence|left; by apply only_executes_app].
Qed.

Lemma stored_within_no_dump ctx evs :
  Forall (fun ev => ∀ p x, ev ≠ EPickleDump p x) evs → stored_within_transaction ctx evs.
Proof.
  intros H. apply stored_within_none. intros pre p x post ->.
  apply Forall_app in H as [_ H]. apply Forall_cons in H as [H _]. by apply (H p x).
Qed.

Lemma only_executes_dump_free evs :
  only_executes evs → Forall (fun ev => ∀ p x, ev ≠ EPickleDump p x) evs.
Proof. intros H. eapply Forall_impl; [exact H|]. by intros ev [sql ->] p x. Qed.

(** The loop of [trigger_all] writes a trigger value only between the
    regeneration statement of its view and the commit. *)
Lemma trigger_each_stored ctx order (s : State) :
  ∃ evs,
    trace (trigger_each ctx order s).2 = trace s ++ evs ∧
    stored_within_transaction ctx evs.
Proof.
  revert s. induction order as [|name rest IH]; intros s.
  { exists []. simpl. rewrite (right_id_L [] (++)). split; [done|].
    apply stored_within_no_dump. constructor. }
  simpl. unfold mbind, M_bind, bind, lift.
  destruct (dict_get name (views ctx)) as [v|] eqn:Hv.
  2:{ exists []. simpl. rewrite (right_id_L [] (++)). split; [done|].
      apply stored_within_no_dump. constructor. }
  destruct (negb (is_persisted_derived_table v)); [apply IH|].
  unfold begin_transaction.
  destruct (conn_begin (db s)) as [[e|t] d]; simpl.
  { exists [EBegin]. split; [done|]. apply stored_within_no_dump. by repeat constructor. }
  set (s1 := {| db := d; files := files s; trace := trace s ++ [EBegin];
                transaction := Some t |}).
  destruct (trigger_view_events ctx v s1) as (evs & Ht & Htx & Hevs).
  destruct (trigger_view ctx v s1) as [[[]|e|] s2]; simpl in *.
  - unfold commit_transaction. rewrite Htx.
    destruct (conn_commit t (db s2)) as [a d']. simpl.
    assert (stored_within_transaction ctx ([EBegin] ++ (evs ++ [ECommit]))) as Hframe.
    { apply stored_within_app; [apply stored_within_no_dump; by repeat constructor|].
      destruct Hevs as [Hevs|(sql & pre & x & _ & Hsql & Hpre & ->)].
      - apply stored_within_no_dump, Forall_app.
        split; [by apply only_executes_dump_free|by repeat constructor].
      - rewrite <- (assoc_L (++)). by eapply stored_within_frame. }
    destruct a as [e|[]]; simpl.
    + exists ([EBegin] ++ (evs ++ [ECommit])). split; [|done].
      rewrite Ht. by rewrite <- !(assoc_L (++)).
    + destruct (IH (log ECommit d' s2)) as (evs' & Ht' & Hevs').
      exists (([EBegin] ++ (evs ++ [ECommit])) ++ evs'). split; [|by apply stored_within_app].
      rewrite Ht'. simpl. rewrite Ht. by rewrite <- !(assoc_L (++)).
  - exists ([EBegin] ++ evs). split; [by rewrite Ht, <- !(assoc_L (++))|].
    apply stored_within_no_dump, Forall_app. split; [by repeat constructor|].
    destruct Hevs as [Hevs|(? & ? & ? & ? & _)]; [by apply only_executes_dump_free|done].
  - exists ([EBegin] ++ evs). split; [by rewrite Ht, <- !(assoc_L (++))|].
    apply stored_within_no_dump, Forall_app. split; [by repeat constructor|].
    destruct Hevs as [Hevs|(? & ? & ? & ? & _)]; [by apply only_executes_dump_free|done].
Qed.

End traces.

(** ** The run *)

Section the_run.
Context {conn : Connection}.

Lemma trigger_each_app ctx pre post (s : State) :
  trigger_each ctx (pre ++ post) s =
  (trigger_each ctx pre ≫= fun _ => trigger_each ctx post) s.
Proof.
  revert s. induction pre as [|name pre IH]; intros s; [done|].
  simpl. unfold mbind, M_bind, bind, lift in *.
  destruct (dict_get name (views ctx)) as [v|]; [|done].
  destruct (negb (is_persisted_derived_table v)); [apply IH|].
  destruct (begin_transaction s) as [[[]|e|] s1]; [|done..].
  destruct (trigger_view ctx v s1) as [[[]|e|] s2]; [|done..].
  destruct (commit_transaction s2) as [[[]|e|] s3]; [|done..].
  apply IH.
Qed.

Lemma quiet_create_schema ctx : quiet (create_looker_scratch_schema ctx).
Proof.
  unfold create_looker_scratch_schema, create_schema.
  apply quiet_bind; [apply quiet_lift|intros sql].
  apply quiet_bind; [apply quiet_execute|intros _]. apply quiet_ret.
Qed.

(** In a run of [trigger_all] the writing of a trigger value stands between
    the regeneration statement of its view and the commit. *)
Lemma trigger_all_stored ctx (s : State) :
  ∃ evs,
    trace (trigger_all ctx s).2 = trace s ++ evs ∧
    stored_within_transaction ctx evs.
Proof.
  unfold trigger_all, mbind, M_bind, bind, lift, try_except. simpl.
  destruct (view_topological_order ctx) as [order|e|];
    [|exists []; simpl; rewrite (right_id_L [] (++)); split; [done|];
      apply stored_within_no_dump; constructor..].
  set (s' := {| db := db s; files := files s; trace := trace s; transaction := None |}).
  destruct (quiet_create_schema ctx s') as (evs & Ht & Hev & _ & Htx).
  assert (∀ (r : result unit) (s1 : State) evs1,
             trace s1 = trace s ++ evs1 → stored_within_transaction ctx evs1 →
             ∃ evs2,
               trace (match r with
                      | Ok a => (Ok a, s1)
                      | Raise _ => rollback_transaction s1
                      | OutOfFuel => (OutOfFuel, s1)
                      end).2 = trace s ++ evs2 ∧
               stored_within_transaction ctx evs2) as Hhandler.
  { intros r s1 evs1 Ht1 Hs1. destruct r as [[]|e|]; [by exists evs1| |by exists evs1].
    unfold rollback_transaction. destruct (transaction s1) as [t|]; [|by exists evs1].
    destruct (conn_rollback t (db s1)) as [a d]. simpl.
    exists (evs1 ++ [ERollback]). split; [by rewrite Ht1, (assoc_L (++))|].
    apply stored_within_app; [done|]. apply stored_within_no_dump. by repeat constructor. }
  destruct (create_looker_scratch_schema ctx s') as [[[]|e|] s1]; simpl in *.
  - destruct (trigger_each_stored ctx order s1) as (evs' & Ht' & Hev').
    destruct (trigger_each ctx order s1) as [r s2]. simpl in *.
    apply (Hhandler r s2 (evs ++ evs')).
    + by rewrite Ht', Ht, (assoc_L (++)).
    + apply stored_within_app; [|done].
      by apply stored_within_no_dump, only_executes_dump_free.
  - apply (Hhandler (Raise e) s1 evs); [done|].
    by apply stored_within_no_dump, only_executes_dump_free.
  - exists evs. split; [done|].
    by apply stored_within_no_dump, only_executes_dump_free.
Qed.

Lemma no_event_added {A} (l m : list A) : l = l ++ m → m = [].
Proof. intros H. apply (inj (app l)). by rewrite (right_id_L [] (++)). Qed.

Lemma last_event_split {A} (l pre post : list A) (a b : A) :
  l ++ [a] = pre ++ b :: post →
  (pre = l ∧ b = a ∧ post = []) ∨ ∃ m, l = pre ++ b :: m.
Proof.
  intros [(m & Hl & _)|(m & -> & Hm)]%app_split_at; [right; by exists m|].
  destruct m as [|c m]; simplify_eq/=.
  - left. by rewrite (right_id_L [] (++)).
  - by destruct m.
Qed.

(** A trigger value that [trigger_view] writes: the staleness check has
    returned it, the regeneration statement has been executed with a result,
    and the writing is the last thing [trigger_view] does. *)
Lemma trigger_view_dump ctx v (s2 : State) pre p x post :
  trace (trigger_view ctx v s2).2 = trace s2 ++ pre ++ EPickleDump p x :: post →
  ∃ (s3 : State) sql res d,
    p = _pickle_path v ∧
    check_staleness ctx v s2 = (Ok (false, Some x), s3) ∧
    regenerate_derived_table_sql ctx v = Ok sql ∧
    conn_execute sql (db s3) = (inr res, d) ∧
    trigger_view ctx v s2 = set_trigger_value v x (log (EExecute sql) d s3) ∧
    trace s3 ++ [EExecute sql] = trace s2 ++ pre ∧
    post = [].
Proof.
  unfold trigger_view. destruct (negb (is_persisted_derived_table v)).
  { simpl. intros H%no_event_added. by destruct pre. }
  destruct (quiet_check_staleness ctx v s2) as (evs & Ht & Hev & _ & _).
  assert (∀ l, only_executes l → trace s2 ++ l ≠ trace s2 ++ pre ++ EPickleDump p x :: post)
    as Hno.
  { intros l Hl H%(inj (app (trace s2))). by apply (only_executes_no_dump _ _ _ _ _ Hl H). }
  unfold try_except, mbind, M_bind, bind, raise, ret.
  destruct (check_staleness ctx v s2) as [[[fresh latest]|e|] s3]; simpl in *;
    [|intros H; rewrite Ht in H; by destruct (Hno evs)..].
  destruct fresh; simpl; [intros H; rewrite Ht in H; by destruct (Hno evs)|].
  unfold regenerate_persisted_derived_table, mbind, M_bind, bind, lift.
  destruct (regenerate_derived_table_sql ctx v) as [sql|e|] eqn:Hsql; simpl;
    [|intros H; rewrite Ht in H; by destruct (Hno evs)..].
  unfold execute. destruct (conn_execute sql (db s3)) as [[e|res] d] eqn:He; simpl.
  { rewrite Ht, <- (assoc_L (++)). intros H.
    destruct (Hno (evs ++ [EExecute sql])); [|done].
    apply only_executes_app; [done|]. repeat constructor. by exists sql. }
  destruct latest as [y|]; simpl.
  2:{ rewrite Ht, <- (assoc_L (++)). intros H.
      destruct (Hno (evs ++ [EExecute sql])); [|done].
      apply only_executes_app; [done|]. repeat constructor. by exists sql. }
  intros H. rewrite Ht, <- !(assoc_L (++)) in H. apply (inj (app (trace s2))) in H.
  rewrite (assoc_L (++)) in H.
  apply last_event_split in H as [(-> & [= -> ->] & ->)|[m Hm]].
  - exists s3, sql, res, d. split_and!; try done.
    by rewrite Ht, <- (assoc_L (++)).
  - exfalso. eapply only_executes_no_dump; [|exact Hm].
    apply only_executes_app; [done|]. repeat constructor. by exists sql.
Qed.

Lemma trigger_each_trace ctx order (s : State) :
  ∃ evs, trace (trigger_each ctx order s).2 = trace s ++ evs.
Proof. destruct (trigger_each_stored ctx order s) as (evs & H & _). by exists evs. Qed.

(** A trigger value that the loop writes: the views before have been
    processed without an error, the transaction of the view is open, and the
    commit comes next. *)
Lemma trigger_each_dump ctx order (sc : State) pre p x post :
  trace (trigger_each ctx order sc).2 = trace sc ++ pre ++ EPickleDump p x :: post →
  ∃ before name rest v (s1 s2 s3 : State) sql res d post',
    order = before ++ name :: rest ∧
    trigger_each ctx before sc = (Ok tt, s1) ∧
    dict_get name (views ctx) = Some v ∧
    is_persisted_derived_table v = true ∧
    p = _pickle_path v ∧
    begin_transaction s1 = (Ok tt, s2) ∧
    check_staleness ctx v s2 = (Ok (false, Some x), s3) ∧
    regenerate_derived_table_sql ctx v = Ok sql ∧
    conn_execute sql (db s3) = (inr res, d) ∧
    trigger_view ctx v s2 = set_trigger_value v x (log (EExecute sql) d s3) ∧
    trace s3 ++ [EExecute sql] = trace sc ++ pre ∧
    post = ECommit :: post'.
Proof.
  revert sc pre. induction order as [|name order IH]; intros sc pre.
  { simpl. intros H%no_event_added. by destruct pre. }
  simpl. unfold mbind, M_bind, bind, lift.
  destruct (dict_get name (views ctx)) as [v|] eqn:Hv.
  2:{ simpl. intros H%no_event_added. by destruct pre. }
  destruct (is_persisted_derived_table v) eqn:Hpdt; simpl.
  2:{ intros H. destruct (IH _ _ H)
        as (before & name' & rest & v' & s1 & s2 & s3 & sql & res & d & post' &
            -> & Hbefore & Hrest).
      exists (name :: before), name', rest, v', s1, s2, s3, sql, res, d, post'.
      split; [done|]. split; [|done].
      simpl. unfold mbind, M_bind, bind, lift. by rewrite Hv, Hpdt. }
  destruct (begin_transaction sc) as [[[]|e|] s2] eqn:Hbegin.
  2,3: unfold begin_transaction in Hbegin;
       destruct (conn_begin (db sc)) as [[e'|t] d0]; simplify_eq/=;
       intros H%(inj (app (trace sc))); by destruct pre as [|? [|? ?]].
  assert (trace s2 = trace sc ++ [EBegin] ∧ ∃ t, transaction s2 = Some t) as [Ht2 [t Htx2]].
  { unfold begin_transaction in Hbegin.
    destruct (conn_begin (db sc)) as [[e'|t] d0]; simplify_eq/=. split; [done|by exists t]. }
  destruct (trigger_view_events ctx v s2) as (evs & Ht & Htx & Hevs).
  destruct (trigger_view ctx v s2) as [[[]|e|] s4] eqn:Hview; simpl in *.
  2,3: rewrite Ht, Ht2, <- (assoc_L (++)); intros H%(inj (app (trace sc)));
       destruct Hevs as [Hevs|(? & ? & ? & ? & _)]; [|done];
       exfalso; eapply (only_executes_no_dump evs (tail pre) p x post); [done|];
       destruct pre; by simplify_eq/=.
  assert (∃ tail_events (r : result unit) (s5 : State),
            (commit_transaction s4 = (r, s5) ∧ r ≠ Ok tt ∧ tail_events = [] ∨
             commit_transaction s4 = (Ok tt, s5) ∧
             trace (trigger_each ctx order s5).2 = trace s5 ++ tail_events) ∧
            trace s5 = trace s4 ++ [ECommit] ∧
            trace (match commit_transaction s4 with
                   | (Ok _, s') => trigger_each ctx order s'
                   | (Raise e, s') => (Raise e, s')
                   | (OutOfFuel, s') => (OutOfFuel, s')
                   end).2 = trace s5 ++ tail_events)
    as (tail_events & r & s5 & Hcommit & Ht5 & Hfull).
  { unfold commit_transaction. rewrite Htx, Htx2.
    destruct (conn_commit t (db s4)) as [[e|[]] d']; simpl.
    - exists [], (Raise e), (log ECommit d' s4). split_and!; [left; by split_and!|done|].
      by rewrite (right_id_L [] (++)).
    - destruct (trigger_each_trace ctx order (log ECommit d' s4)) as [evs' Hevs'].
      exists evs', (Ok tt), (log ECommit d' s4). split_and!; [right; by split|done|done]. }
  rewrite Hfull, Ht5, Ht, Ht2, <- !(assoc_L (++)).
  intros H%(inj (app (trace sc))).
  change (EBegin :: evs ++ ECommit :: tail_events = pre ++ EPickleDump p x :: post) in H.
  destruct pre as [|ev pre]; [by simplify_eq/=|]. simpl in H.
  injection H as <- H.
  apply app_split_at in H as [(m & Hevs_eq & ->)|(m & -> & Hm)].
  - (* the value is written by this view *)
    destruct (trigger_view_dump ctx v s2 pre p x m)
      as (s3 & sql & res & d & -> & Hcheck & Hsql & He & Hrun & Htrace & ->).
    { rewrite Hview. simpl. by rewrite Ht, Hevs_eq. }
    exists [], name, order, v, sc, s2, s3, sql, res, d, tail_events.
    split_and!; try done.
    by rewrite Htrace, Ht2, <- (assoc_L (++)).
  - (* the value is written by a later view *)
    destruct m as [|ev m]; [by simplify_eq/=|]. simpl in Hm. injection Hm as <- Hm.
    destruct Hcommit as [(_ & _ & ->)|[Hcommit Hrest]]; [by destruct m|].
    rewrite Hm in Hrest.
    destruct (IH _ _ Hrest)
      as (before & name' & rest & v' & s1 & s2' & s3 & sql & res & d & post' &
          -> & Hbefore & Hv' & Hpdt' & Hp & Hbegin' & Hcheck & Hsql & He & Hrun & Htrace & Hpost).
    exists (name :: before), name', rest, v', s1, s2', s3, sql, res, d, post'.
    split_and!; try done.
    + simpl. unfold mbind, M_bind, bind, lift. rewrite Hv, Hpdt. simpl.
      by rewrite Hbegin, Hview, Hcommit.
    + rewrite Htrace, Ht5, Ht, Ht2. by rewrite <- !(assoc_L (++)).
Qed.

Lemma dump_in_middle (evs evs' tl pre post : list event) p x :
  only_executes evs →
  tl = [] ∨ tl = [ERollback] →
  evs ++ evs' ++ tl = pre ++ EPickleDump p x :: post →
  ∃ m post0, pre = evs ++ m ∧ evs' = m ++ EPickleDump p x :: post0 ∧ post = post0 ++ tl.
Proof.
  intros Hev Htl [(m & Hm & _)|(m & -> & Hm)]%app_split_at.
  { by destruct (only_executes_no_dump _ _ _ _ _ Hev Hm). }
  apply app_split_at in Hm as [(m2 & -> & ->)|(m2 & -> & Hm2)]; [by exists m, m2|].
  destruct Htl as [->| ->]; [by destruct m2|].
  destruct m2 as [|? [|? ?]]; by simplify_eq/=.
Qed.

(** The events of a run of [trigger_all]: statements alone when the order
    is not returned or the scratch schema is not created; otherwise the
    creation of the scratch schema, the events of the loop, and the rollback
    when the handler reaches it. *)
Lemma trigger_all_shape ctx (s : State) :
  (∃ evs, trace (trigger_all ctx s).2 = trace s ++ evs ∧ only_executes evs) ∨
  (∃ order (sc : State) evs evs' tl,
     view_topological_order ctx = Ok order ∧
     create_looker_scratch_schema ctx (enter s).2 = (Ok tt, sc) ∧
     trace sc = trace s ++ evs ∧ only_executes evs ∧
     trace (trigger_each ctx order sc).2 = trace sc ++ evs' ∧
     (tl = [] ∨ tl = [ERollback]) ∧
     trace (trigger_all ctx s).2 = trace s ++ evs ++ evs' ++ tl).
Proof.
  unfold trigger_all, mbind, M_bind, bind, lift, try_except. simpl.
  destruct (view_topological_order ctx) as [order|e|];
    [|left; exists []; simpl; rewrite (right_id_L [] (++)); split; [done|constructor]..].
  set (s' := {| db := db s; files := files s; trace := trace s; transaction := None |}).
  destruct (quiet_create_schema ctx s') as (evs & Ht & Hev & _ & Htx).
  destruct (create_looker_scratch_schema ctx s') as [[[]|e|] sc] eqn:Hcreate; simpl in *.
  2:{ left. exists evs. unfold rollback_transaction. rewrite Htx. by simpl. }
  2:{ left. by exists evs. }
  right. destruct (trigger_each_trace ctx order sc) as [evs' Ht'].
  assert (∀ tl (r : result unit * State),
            (tl = [] ∨ tl = [ERollback]) → trace r.2 = trace sc ++ evs' ++ tl →
            ∃ order0 (sc0 : State) evs0 evs0' tl0,
              Ok order = Ok order0 ∧ (Ok tt, sc) = (Ok tt, sc0) ∧
              trace sc0 = trace s ++ evs0 ∧ only_executes evs0 ∧
              trace (trigger_each ctx order0 sc0).2 = trace sc0 ++ evs0' ∧
              (tl0 = [] ∨ tl0 = [ERollback]) ∧
              trace r.2 = trace s ++ evs0 ++ evs0' ++ tl0) as Hfinish.
  { intros tl r Htl Hr. exists order, sc, evs, evs', tl. split_and!; try done.
    by rewrite Hr, Ht, <- !(assoc_L (++)). }
  destruct (trigger_each ctx order sc) as [[[]|e|] s_end] eqn:Heach; simpl in *.
  - apply (Hfinish [] (Ok tt, s_end)); [by left|]. by rewrite (right_id_L [] (++)).
  - unfold rollback_transaction. destruct (transaction s_end) as [t|].
    + destruct (conn_rollback t (db s_end)) as [a d].
      apply (Hfinish [ERollback] (answer a, log ERollback d s_end)); [by right|].
      simpl. by rewrite Ht', <- (assoc_L (++)).
    + apply (Hfinish [] (Raise (UnboundLocalError "transaction"), s_end)); [by left|].
      by rewrite (right_id_L [] (++)).
  - apply (Hfinish [] (OutOfFuel, s_end)); [by left|]. by rewrite (right_id_L [] (++)).
Qed.

(** A trigger value that a run of [trigger_all] writes. *)
Lemma trigger_all_dump ctx (s : State) pre p x post :
  trace (trigger_all ctx s).2 = trace s ++ pre ++ EPickleDump p x :: post →
  stored_after_regeneration ctx s pre p x post.
Proof.
  intros H.
  destruct (trigger_all_shape ctx s)
    as [(evs & Ht & Hev)|(order & sc & evs & evs' & tl & Horder & Hcreate & Hsc & Hev & Heach &
                           Htl & Ht)];
    rewrite Ht in H; apply (inj (app (trace s))) in H.
  { by destruct (only_executes_no_dump _ _ _ _ _ Hev H). }
  destruct (dump_in_middle _ _ _ _ _ _ _ Hev Htl H) as (m & post0 & -> & Hevs' & ->).
  destruct (trigger_each_dump ctx order sc m p x post0)
    as (before & name & rest & v & s1 & s2 & s3 & sql & res & d & post' &
        -> & Hbefore & Hv & Hpdt & Hp & Hbegin & Hcheck & Hsql & He & Hrun & Htrace & ->).
  { by rewrite Heach, Hevs'. }
  exists before, name, rest, v, sc, s1, s2, s3, sql, res, d, (post' ++ tl).
  split_and!; try done. by rewrite Htrace, Hsc, <- (assoc_L (++)).
Qed.

(** C4, as write-before-commit: in a run of [trigger_all], a trigger value
    is written only for a persisted derived table of the order that the
    staleness check has found stale, the value being the one the trigger query
    returned, directly after the regeneration statement of that view has been
    executed and the connection has returned from it without raising, and
    before the transaction of that view is committed: the commit is the next
    thing the run does. *)
Theorem store_written_within_transaction ctx (s : State) :
  ∃ evs,
    trace (trigger_all ctx s).2 = trace s ++ evs ∧
    stored_within_transaction ctx evs ∧
    ∀ pre p x post,
      evs = pre ++ EPickleDump p x :: post → stored_after_regeneration ctx s pre p x post.
Proof.
  destruct (trigger_all_stored ctx s) as (evs & Ht & Hstored).
  exists evs. split_and!; [done|done|].
  intros pre p x post ->. by apply trigger_all_dump.
Qed.

(** C5, with the handler that does not re-raise: when [trigger_view]
    raises for a view of the order, no later view is processed and the error reaches the handler of
    [trigger_all], which rolls back the transaction opened for that view; the
    outcome of [trigger_all] is the outcome of that rollback, so that after a
    rollback that succeeds [trigger_all] returns normally and the error is
    not raised again. *)
Theorem failed_view_aborts_run ctx pre name post v (s0 s1 s2 s3 : State) e :
  view_topological_order ctx = Ok (pre ++ name :: post) →
  (create_looker_scratch_schema ctx ≫= fun _ => trigger_each ctx pre) (enter s0).2
    = (Ok tt, s1) →
  dict_get name (views ctx) = Some v →
  is_persisted_derived_table v = true →
  begin_transaction s1 = (Ok tt, s2) →
  trigger_view ctx v s2 = (Raise e, s3) →
  ∃ t,
    transaction s3 = Some t ∧
    trigger_all ctx s0 =
      (answer (conn_rollback t (db s3)).1, log ERollback (conn_rollback t (db s3)).2 s3).
Proof.
  intros Horder Hpre Hv Hpdt Hbegin Hview.
  assert (∃ t, transaction s3 = Some t) as [t Ht].
  { destruct (trigger_view_events ctx v s2) as (_ & _ & Htx & _).
    rewrite Hview in Htx. simpl in Htx. rewrite Htx.
    revert Hbegin. unfold begin_transaction.
    destruct (conn_begin (db s1)) as [[?|t] d]; [done|]. intros [= <-]. by exists t. }
  exists t. split; [done|].
  unfold trigger_all, mbind, M_bind, bind, lift, try_except in *. simpl in *.
  rewrite Horder.
  destruct (create_looker_scratch_schema ctx _) as [[[]|?|] s'] eqn:Hc; [|done..].
  rewrite (trigger_each_app ctx pre (name :: post)).
  unfold mbind, M_bind, bind. rewrite Hpre. simpl.
  unfold mbind, M_bind, bind, lift. rewrite Hv, Hpdt. simpl. rewrite Hbegin, Hview.
  unfold rollback_transaction. rewrite Ht. by destruct (conn_rollback t (db s3)).
Qed.

(** C9: when the creation of the scratch schema raises, no transaction has
    been opened, and the handler of [trigger_all] still reaches for
    [transaction]: the run ends with [UnboundLocalError] and no rollback. *)
Theorem rollback_reaches_unopened_transaction ctx order (s s1 : State) e :
  view_topological_order ctx = Ok order →
  create_looker_scratch_schema ctx (enter s).2 = (Raise e, s1) →
  trigger_all ctx s = (Raise (UnboundLocalError "transaction"), s1) ∧
  transaction s1 = None.
Proof.
  intros Horder Hc.
  assert (transaction s1 = None) as Hnone.
  { destruct (quiet_create_schema ctx (enter s).2) as (_ & _ & _ & _ & Htx).
    by rewrite Hc in Htx. }
  split; [|done].
  unfold trigger_all, mbind, M_bind, bind, lift, try_except in *. simpl in *.
  rewrite Horder, Hc. unfold rollback_transaction. by rewrite Hnone.
Qed.

End the_run.

(** ** Sample runs *)

Lemma trigger_query_first_scalar_witness :
  (get_latest_sql_trigger_value der1 (start [no_rows] ∅)).1 =
    Raise (Exception "Looker `sql_trigger_value` query did not return any value").
Proof.
  exact (trigger_query_first_scalar (conn := scripted) der1 (start [no_rows] ∅)
           "select max(id) from base" {| rowcount := 0; rows := [] |} []
           eq_refl eq_refl eq_refl eq_refl).
Defined.

Lemma extra_rows_ignored_witness :
  get_latest_sql_trigger_value der1 (start [inr two_rows] ∅) =
    (Ok (VInt 7), log (EExecute "select max(id) from base") ([] : @DB scripted)
                    (start [inr two_rows] ∅)) ∧
  has_table ctx_chain "_der1" "looker_scratch" (start [inr three_rows; no_rows] ∅) =
    (Ok (VBool true), log (EExecute exists_der1) ([no_rows] : @DB scripted)
                        (start [inr three_rows; no_rows] ∅)).
Proof.
  split.
  - apply (proj1 (extra_rows_ignored (conn := scripted) ctx_chain) der1
             (start [inr two_rows] ∅) "select max(id) from base" two_rows []
             (VInt 7) [VStr "x"] [VInt 8; VStr "y"] []); reflexivity.
  - apply (proj2 (extra_rows_ignored (conn := scripted) ctx_chain) "_der1" "looker_scratch"
             (start [inr three_rows; no_rows] ∅) exists_der1 three_rows [no_rows]
             (VBool true) [] [VBool false] [[VBool false]]); reflexivity.
Defined.

Lemma fresh_view_untouched_witness :
  trigger_view ctx_chain der1 der1_fresh =
    (Ok tt, {| db := ([] : @DB scripted); files := files der1_fresh;
               trace := trace der1_fresh ++
                          [EExecute exists_der1; EExecute "select max(id) from base"];
               transaction := transaction der1_fresh |}).
Proof.
  apply (fresh_view_untouched (conn := scripted) ctx_chain der1 der1_fresh
           exists_der1 {| rowcount := 1; rows := [[VBool true]] |} [one_row (VInt 5)]
           (VBool true)
           "select max(id) from base" {| rowcount := 1; rows := [[VInt 5]] |} []
           (VInt 5) (VInt 5)); try reflexivity.
  discriminate.
Defined.

(** C8 does not hold for a stored [None]: a trigger query that returns
    [None] makes a first run store [None]; on the next check the stored value
    and the value the trigger query returns are equal and the table exists,
    and yet the regeneration statement is executed and the value is written
    again. *)
Lemma stored_none_regenerates :
  files (trigger_view ctx_chain der1
           (start [one_row (VBool true); one_row VNone; no_rows] ∅)).2 = files der1_none ∧
  is_persisted_derived_table der1 = true ∧
  (has_table ctx_chain "_der1" "looker_scratch" der1_none).1 = Ok (VBool true) ∧
  (get_latest_sql_trigger_value der1
     (has_table ctx_chain "_der1" "looker_scratch" der1_none).2).1 = Ok VNone ∧
  files der1_none !! _pickle_path der1 = Some VNone ∧
  py_eq VNone VNone = true ∧
  regenerate_derived_table_sql ctx_chain der1 = Ok regenerate_der1 ∧
  trace (trigger_view ctx_chain der1 der1_none).2 =
    [EExecute exists_der1; EExecute "select max(id) from base"; EExecute regenerate_der1;
     EPickleDump "der1.pickle" VNone].
Proof. repeat split; vm_compute; reflexivity. Qed.

Lemma missing_table_stores_nothing_witness :
  trigger_view ctx_chain der1 der1_missing =
    (Raise (UnboundLocalError "latest_trigger_value"),
     {| db := ([] : @DB scripted); files := files der1_missing;
        trace := trace der1_missing ++ [EExecute exists_der1; EExecute regenerate_der1];
        transaction := transaction der1_missing |}).
Proof.
  apply (missing_table_stores_nothing (conn := scripted) ctx_chain der1 der1_missing
           exists_der1 {| rowcount := 1; rows := [[VBool false]] |} [no_rows]
           (VBool false) regenerate_der1 {| rowcount := 0; rows := [] |} []);
    reflexivity.
Defined.

(** C4 does not hold as write-after-commit: in a run where everything
    succeeds, the trigger value of [der1] is written when nothing has been
    committed yet; the commit comes next. *)
Lemma trigger_value_written_before_commit :
  (trigger_all ctx_chain run_regenerating).1 = Ok tt ∧
  take 7 (trace (trigger_all ctx_chain run_regenerating).2) =
    [EExecute create_scratch; EBegin; EExecute exists_der1;
     EExecute "select max(id) from base"; EExecute regenerate_der1;
     EPickleDump "der1.pickle" (VInt 5); ECommit] ∧
  ¬ written_after_commit (trace (trigger_all ctx_chain run_regenerating).2).
Proof.
  split; [by vm_compute|]. split; [by vm_compute|].
  intros H.
  specialize (H [EExecute create_scratch; EBegin; EExecute exists_der1;
                 EExecute "select max(id) from base"; EExecute regenerate_der1]
                "der1.pickle" (VInt 5)
                (drop 6 (trace (trigger_all ctx_chain run_regenerating).2))).
  assert (ECommit ∈ [EExecute create_scratch; EBegin; EExecute exists_der1;
                     EExecute "select max(id) from base"; EExecute regenerate_der1]) as Hin
    by (apply H; by vm_compute).
  repeat (apply elem_of_cons in Hin as [Hin|Hin]; [discriminate|]).
  by apply elem_of_nil in Hin.
Qed.

(** The run in which everything succeeds: the value written for [der1] is
    the one its trigger query returned, after the regeneration statement has
    been executed with a result and before the commit. *)
Lemma run_regenerating_stored :
  stored_after_regeneration ctx_chain run_regenerating
    [EExecute create_scratch; EBegin; EExecute exists_der1;
     EExecute "select max(id) from base"; EExecute regenerate_der1]
    "der1.pickle" (VInt 5)
    (drop 6 (trace (trigger_all ctx_chain run_regenerating).2)).
Proof. apply trigger_all_dump. by vm_compute. Qed.

Lemma failed_view_aborts_run_witness :
  ∃ t,
    transaction run_failing_failed = Some t ∧
    trigger_all ctx_chain run_failing =
      (answer (conn_rollback t (db run_failing_failed)).1,
       log ERollback (conn_rollback t (db run_failing_failed)).2 run_failing_failed).
Proof.
  apply (failed_view_aborts_run (conn := scripted) ctx_chain ["base"] "der1" ["der2"] der1
           run_failing run_failing_prepared run_failing_begun run_failing_failed
           (DatabaseError "connection lost")); reflexivity.
Defined.

(** C5 does not hold for the re-raising: the existence query of [der1]
    raises, so that [trigger_view] raises, and [trigger_all] returns normally
    after the rollback; [der2] is not processed. *)
Lemma failed_view_not_raised_again :
  (trigger_view ctx_chain der1 run_failing_begun).1 = Raise (DatabaseError "connection lost") ∧
  (trigger_all ctx_chain run_failing).1 = Ok tt ∧
  trace (trigger_all ctx_chain run_failing).2 =
    [EExecute create_scratch; EBegin; EExecute exists_der1; ERollback].
Proof. repeat split; vm_compute; reflexivity. Qed.

Lemma rollback_reaches_unopened_transaction_witness :
  trigger_all ctx_chain run_without_schema =
    (Raise (UnboundLocalError "transaction"),
     (create_looker_scratch_schema ctx_chain (enter run_without_schema).2).2) ∧
  transaction (create_looker_scratch_schema ctx_chain (enter run_without_schema).2).2 = None.
Proof.
  apply (rollback_reaches_unopened_transaction (conn := scripted) ctx_chain
           ["base"; "der1"; "der2"] run_without_schema _
           (DatabaseError "permission denied")); reflexivity.
Defined.

(** ** Reference extraction *)

(** C6: on a template that holds two references on one line, the greedy
    pattern matches once, from the first reference to the end of the second,
    and the unpacking of the match raises [ValueError]: no dependency set is
    produced. *)
Theorem references_on_one_line_fail :
  finditer one_line = ["a.field1} join ${b.field2"] ∧
  view_dependencies (ctx_ab one_line) (pdt "c" one_line "select 1") =
    Raise (ValueError "too many values to unpack (expected 2)").
Proof. repeat split; vm_compute; reflexivity. Qed.

(** The same two references on two lines give the two views. *)
Lemma references_on_two_lines :
  bind_result (view_dependencies (ctx_ab two_lines) (pdt "c" two_lines "select 1"))
    (fun deps => Ok (dom deps)) = Ok ({[ "a"; "b" ]} : gset string).
Proof. repeat split; vm_compute; reflexivity. Qed.

(** * Further properties *)

(** ** The trigger value store *)

Lemma string_length_append (a b : string) :
  String.length (a +:+ b) = String.length a + String.length b.
Proof. induction a as [|c a IH]; simpl; [done|]. by rewrite IH. Qed.

Lemma string_append_inj_r (a b t : string) : a +:+ t = b +:+ t → a = b.
Proof.
  revert b. induction a as [|c a IH]; intros [|c' b] H; simpl in H.
  - done.
  - apply (f_equal String.length) in H. simpl in H.
    rewrite !string_length_append in H. simpl in H. lia.
  - apply (f_equal String.length) in H. simpl in H.
    rewrite !string_length_append in H. simpl in H. lia.
  - inversion H; subst. f_equal. by apply IH.
Qed.

Lemma _pickle_path_inj v v' : _pickle_path v = _pickle_path v' → view_name v = view_name v'.
Proof. apply string_append_inj_r. Qed.

Section store.
Context {conn : Connection}.

(** X1: what the setter of [trigger_value] stores for a view, the getter
    returns for that view; the value of a view with another name is left as
    it was. *)
Theorem trigger_value_round_trip v v' x (s : State) :
  view_name v' ≠ view_name v →
  (trigger_value v (set_trigger_value v x s).2).1 = Ok x ∧
  (trigger_value v' (set_trigger_value v x s).2).1 = (trigger_value v' s).1.
Proof.
  intros Hne. unfold trigger_value, set_trigger_value. simpl. split.
  - by rewrite lookup_insert_eq.
  - rewrite lookup_insert_ne; [done|]. intros H. apply _pickle_path_inj in H. by apply Hne.
Qed.

Lemma py_eq_refl x : py_eq x x = true.
Proof.
  destruct x as [|b|z|t]; simpl; [done|by destruct b|apply Z.eqb_refl|apply String.eqb_refl].
Qed.

(** X2: for a persisted derived table whose physical table exists and whose
    stored trigger value is missing, [None], or different from the value the
    trigger query returns, [trigger_view] executes the regeneration statement
    and then stores the value the trigger query returned. *)
Theorem stale_view_regenerated ctx v (s : State) q1 r1 d1 has q2 r2 d2 latest q3 r3 d3 :
  is_persisted_derived_table v = true →
  _has_table_sql ctx ("_" +:+ view_name v) "looker_scratch" = Ok q1 →
  conn_execute q1 (db s) = (inr r1, d1) →
  (0 < rowcount r1)%Z →
  head (rows r1) ≫= head = Some has →
  truthy has = true →
  sql_trigger_value v = Ok q2 →
  conn_execute q2 d1 = (inr r2, d2) →
  (0 < rowcount r2)%Z →
  head (rows r2) ≫= head = Some latest →
  is_not_None (default VNone (files s !! _pickle_path v)) &&
    py_eq (default VNone (files s !! _pickle_path v)) latest = false →
  regenerate_derived_table_sql ctx v = Ok q3 →
  conn_execute q3 d2 = (inr r3, d3) →
  trigger_view ctx v s =
    (Ok tt, {| db := d3; files := <[ _pickle_path v := latest ]> (files s);
               trace := trace s ++ [EExecute q1; EExecute q2; EExecute q3;
                                    EPickleDump (_pickle_path v) latest];
               transaction := transaction s |}).
Proof.
  intros Hpdt Hq1 He1 Hc1 Hh1 Hhas Hq2 He2 Hc2 Hh2 Hstale Hq3 He3.
  unfold trigger_view. rewrite Hpdt.
  unfold try_except, mbind, M_bind, bind. simpl.
  rewrite (check_staleness_exists _ _ _ _ _ _ _ _ _ _ _
             Hpdt Hq1 He1 Hc1 Hh1 Hhas Hq2 He2 Hc2 Hh2).
  rewrite Hstale. unfold regenerate_persisted_derived_table. run.
  rewrite Hq3. simpl. rewrite He3. simpl.
  unfold set_trigger_value, log. simpl. by rewrite <- !(assoc_L (++)).
Qed.

(** X3: once the setter has stored a value other than [None] for a view,
    a check of that view that finds its table and reads an equal value from
    the trigger query leaves the view alone: two queries, no regeneration,
    no writing. *)
Theorem stored_value_makes_view_fresh ctx v x (s : State) q1 r1 d1 has q2 r2 d2 latest :
  is_persisted_derived_table v = true →
  x ≠ VNone →
  _has_table_sql ctx ("_" +:+ view_name v) "looker_scratch" = Ok q1 →
  conn_execute q1 (db s) = (inr r1, d1) →
  (0 < rowcount r1)%Z →
  head (rows r1) ≫= head = Some has →
  truthy has = true →
  sql_trigger_value v = Ok q2 →
  conn_execute q2 d1 = (inr r2, d2) →
  (0 < rowcount r2)%Z →
  head (rows r2) ≫= head = Some latest →
  py_eq x latest = true →
  trigger_view ctx v (set_trigger_value v x s).2 =
    (Ok tt, {| db := d2; files := <[ _pickle_path v := x ]> (files s);
               trace := trace s ++ [EPickleDump (_pickle_path v) x;
                                    EExecute q1; EExecute q2];
               transaction := transaction s |}).
Proof.
  intros Hpdt Hx Hq1 He1 Hc1 Hh1 Hhas Hq2 He2 Hc2 Hh2 Heq.
  unfold trigger_view. rewrite Hpdt.
  unfold try_except, mbind, M_bind, bind. cbn [negb].
  rewrite (check_staleness_exists ctx v (set_trigger_value v x s).2
             q1 r1 d1 has q2 r2 d2 latest Hpdt Hq1 He1 Hc1 Hh1 Hhas Hq2 He2 Hc2 Hh2).
  simpl. rewrite lookup_insert_eq. simpl. rewrite Heq.
  destruct x; [done|..]; simpl; unfold log; simpl; by rewrite <- !(assoc_L (++)).
Qed.

(** What [trigger_view] does to the pickle files: nothing, or, on a normal
    return, one writing of the file of its view. *)
Lemma trigger_view_files ctx v (s : State) :
  files (trigger_view ctx v s).2 = files s ∨
  (trigger_view ctx v s).1 = Ok tt ∧
  ∃ x, files (trigger_view ctx v s).2 = <[ _pickle_path v := x ]> (files s).
Proof.
  unfold trigger_view. destruct (negb (is_persisted_derived_table v)); [by left|].
  destruct (quiet_check_staleness ctx v s) as (_ & _ & _ & Hf & _).
  unfold try_except, mbind, M_bind, bind.
  destruct (check_staleness ctx v s) as [[[fresh latest]|e|] s1]; simpl in *; [|by left..].
  destruct fresh; [by left|].
  unfold regenerate_persisted_derived_table, mbind, M_bind, bind, lift.
  destruct (regenerate_derived_table_sql ctx v) as [sql|e|]; simpl; [|by left..].
  destruct (quiet_execute sql s1) as (_ & _ & _ & Hf1 & _).
  destruct (execute sql s1) as [[r|e|] s2]; simpl in *; [|left; congruence..].
  destruct latest as [x|]; simpl; [|left; congruence].
  right. split; [done|]. exists x. congruence.
Qed.

(** X4: [trigger_view] leaves the stored trigger value of every other file
    as it was, and when it raises it leaves the whole store as it was. *)
Theorem trigger_view_store_frame ctx v (s : State) p :
  p ≠ _pickle_path v →
  files (trigger_view ctx v s).2 !! p = files s !! p ∧
  ∀ e, (trigger_view ctx v s).1 = Raise e → files (trigger_view ctx v s).2 = files s.
Proof.
  intros Hp. destruct (trigger_view_files ctx v s) as [Hf|(Hok & x & Hf)].
  - split; [by rewrite Hf|done].
  - split; [by rewrite Hf, lookup_insert_ne|]. intros e He. by rewrite Hok in He.
Qed.

(** X5: when the query for the existence of the table returns no row,
    [trigger_view] raises the error of [has_table] after that one statement:
    the trigger query and the regeneration statement are not executed and
    nothing is stored. *)
Theorem existence_without_rows_aborts ctx v (s : State) q1 r1 d1 :
  is_persisted_derived_table v = true →
  _has_table_sql ctx ("_" +:+ view_name v) "looker_scratch" = Ok q1 →
  conn_execute q1 (db s) = (inr r1, d1) →
  (rowcount r1 ≤ 0)%Z →
  trigger_view ctx v s =
    (Raise (Exception "Has table sql returned no result"),
     {| db := d1; files := files s; trace := trace s ++ [EExecute q1];
        transaction := transaction s |}).
Proof.
  intros Hpdt Hq1 He1 Hc1.
  unfold trigger_view, check_staleness. rewrite Hpdt. run.
  rewrite (pdt_table _ Hpdt), (pdt_schema _ _ Hpdt).
  rewrite (has_table_run _ _ _ _ _ _ _ Hq1 He1).
  replace (0 <? rowcount r1)%Z with false by (symmetry; apply Z.ltb_ge; lia).
  done.
Qed.

End store.

Lemma trigger_value_round_trip_witness :
  (trigger_value der1 (set_trigger_value der1 (VInt 5) (start [] ∅)).2).1 = Ok (VInt 5) ∧
  (trigger_value der2 (set_trigger_value der1 (VInt 5) (start [] ∅)).2).1 =
    (trigger_value der2 (start [] ∅)).1.
Proof.
  apply (trigger_value_round_trip (conn := scripted) der1 der2 (VInt 5) (start [] ∅)).
  discriminate.
Defined.

Lemma stale_view_regenerated_witness :
  trigger_view ctx_chain der1 der1_stale =
    (Ok tt, {| db := ([] : @DB scripted);
               files := <[ _pickle_path der1 := VInt 6 ]> (files der1_stale);
               trace := trace der1_stale ++
                          [EExecute exists_der1; EExecute "select max(id) from base";
                           EExecute regenerate_der1;
                           EPickleDump (_pickle_path der1) (VInt 6)];
               transaction := transaction der1_stale |}).
Proof.
  apply (stale_view_regenerated (conn := scripted) ctx_chain der1 der1_stale
           exists_der1 {| rowcount := 1; rows := [[VBool true]] |}
           [one_row (VInt 6); no_rows] (VBool true)
           "select max(id) from base" {| rowcount := 1; rows := [[VInt 6]] |} [no_rows]
           (VInt 6) regenerate_der1 {| rowcount := 0; rows := [] |} []); reflexivity.
Defined.

Lemma stored_value_makes_view_fresh_witness :
  trigger_view ctx_chain der1
    (set_trigger_value der1 (VInt 5) (start [one_row (VBool true); one_row (VInt 5)] ∅)).2 =
    (Ok tt, {| db := ([] : @DB scripted);
               files := <[ _pickle_path der1 := VInt 5 ]> ∅;
               trace := [] ++ [EPickleDump (_pickle_path der1) (VInt 5);
                               EExecute exists_der1; EExecute "select max(id) from base"];
               transaction := None |}).
Proof.
  apply (stored_value_makes_view_fresh (conn := scripted) ctx_chain der1 (VInt 5)
           (start [one_row (VBool true); one_row (VInt 5)] ∅)
           exists_der1 {| rowcount := 1; rows := [[VBool true]] |} [one_row (VInt 5)]
           (VBool true)
           "select max(id) from base" {| rowcount := 1; rows := [[VInt 5]] |} []
           (VInt 5)); try reflexivity.
  discriminate.
Defined.

Lemma trigger_view_store_frame_witness :
  files (trigger_view ctx_chain der1 der1_stale).2 !! "der2.pickle" =
    files der1_stale !! "der2.pickle" ∧
  ∀ e, (trigger_view ctx_chain der1 der1_stale).1 = Raise e →
       files (trigger_view ctx_chain der1 der1_stale).2 = files der1_stale.
Proof.
  apply (trigger_view_store_frame (conn := scripted) ctx_chain der1 der1_stale "der2.pickle").
  discriminate.
Defined.

Lemma existence_without_rows_aborts_witness :
  trigger_view ctx_chain der1 der1_unanswered =
    (Raise (Exception "Has table sql returned no result"),
     {| db := ([] : @DB scripted); files := files der1_unanswered;
        trace := trace der1_unanswered ++ [EExecute exists_der1];
        transaction := transaction der1_unanswered |}).
Proof.
  apply (existence_without_rows_aborts (conn := scripted) ctx_chain der1 der1_unanswered
           exists_der1 {| rowcount := 0; rows := [] |} []); try reflexivity; try (simpl; lia).
Defined.

(** ** The loop and its handler *)

Section the_loop.
Context {conn : Connection}.

(** X6: views that are not persisted derived tables are passed over by the
    loop of [trigger_all]: no transaction is opened and no statement is
    executed for them. *)
Theorem unpersisted_views_skipped ctx order (s : State) :
  (∀ name, name ∈ order →
     ∃ v, dict_get name (views ctx) = Some v ∧ is_persisted_derived_table v = false) →
  trigger_each ctx order s = (Ok tt, s).
Proof.
  induction order as [|name order IH]; intros Hall; [done|].
  simpl. unfold mbind, M_bind, bind, lift.
  destruct (Hall name) as (v & -> & ->); [left|]. simpl.
  apply IH. intros n Hn. apply Hall. by right.
Qed.

(** X7: under a dialect other than postgresql a run sends nothing to the
    warehouse: the statement that creates the scratch schema cannot be
    built, and the handler, finding [transaction] unbound, ends the run with
    [UnboundLocalError]. *)
Theorem unknown_dialect_sends_nothing ctx order (s : State) :
  sql_dialect ctx ≠ "postgresql" →
  view_topological_order ctx = Ok order →
  trigger_all ctx s =
    (Raise (UnboundLocalError "transaction"),
     {| db := db s; files := files s; trace := trace s; transaction := None |}).
Proof.
  intros Hd Horder.
  unfold trigger_all, create_looker_scratch_schema, create_schema, _create_schema,
    mbind, M_bind, bind, lift, try_except, enter, rollback_transaction. simpl.
  rewrite Horder. by rewrite decide_False.
Qed.

Lemma only_executes_no_rollback evs : only_executes evs → no_rollback evs.
Proof. intros H. eapply Forall_impl; [exact H|]. by intros ev [sql ->]. Qed.

Lemma trigger_each_no_rollback ctx order (s : State) :
  ∃ evs, trace (trigger_each ctx order s).2 = trace s ++ evs ∧ no_rollback evs.
Proof.
  revert s. induction order as [|name rest IH]; intros s.
  { exists []. simpl. rewrite (right_id_L [] (++)). split; [done|constructor]. }
  simpl. unfold mbind, M_bind, bind, lift.
  destruct (dict_get name (views ctx)) as [v|].
  2:{ exists []. simpl. rewrite (right_id_L [] (++)). split; [done|constructor]. }
  destruct (negb (is_persisted_derived_table v)); [apply IH|].
  unfold begin_transaction.
  destruct (conn_begin (db s)) as [[e|t] d]; simpl.
  { exists [EBegin]. split; [done|]. by repeat constructor. }
  set (s1 := {| db := d; files := files s; trace := trace s ++ [EBegin];
                transaction := Some t |}).
  destruct (trigger_view_events ctx v s1) as (evs & Ht & Htx & Hevs).
  assert (no_rollback evs) as Hnr.
  { destruct Hevs as [Hevs|(sql & pre & x & _ & _ & Hpre & ->)].
    - by apply only_executes_no_rollback.
    - apply Forall_app. split; [by apply only_executes_no_rollback|by repeat constructor]. }
  destruct (trigger_view ctx v s1) as [[[]|e|] s2]; simpl in *.
  - unfold commit_transaction. rewrite Htx.
    destruct (conn_commit t (db s2)) as [a d']. simpl.
    assert (no_rollback ([EBegin] ++ (evs ++ [ECommit]))) as Hframe.
    { apply Forall_app. split; [by repeat constructor|].
      apply Forall_app. split; [done|by repeat constructor]. }
    destruct a as [e|[]]; simpl.
    + exists ([EBegin] ++ (evs ++ [ECommit])). split; [|done].
      rewrite Ht. by rewrite <- !(assoc_L (++)).
    + destruct (IH (log ECommit d' s2)) as (evs' & Ht' & Hevs').
      exists (([EBegin] ++ (evs ++ [ECommit])) ++ evs'). split; [|by apply Forall_app].
      rewrite Ht'. simpl. rewrite Ht. by rewrite <- !(assoc_L (++)).
  - exists ([EBegin] ++ evs). split; [by rewrite Ht, <- !(assoc_L (++))|].
    apply Forall_app. split; [by repeat constructor|done].
  - exists ([EBegin] ++ evs). split; [by rewrite Ht, <- !(assoc_L (++))|].
    apply Forall_app. split; [by repeat constructor|done].
Qed.

(** X8: a run rolls back at most once, as the last thing it does, and only
    when the creation of the scratch schema or the loop has raised; a run
    whose steps all succeed never rolls back. *)
Theorem rollback_is_last ctx (s : State) :
  ∃ evs,
    trace (trigger_all ctx s).2 = trace s ++ evs ∧
    (no_rollback evs ∨
     ∃ pre order e,
       evs = pre ++ [ERollback] ∧ no_rollback pre ∧
       view_topological_order ctx = Ok order ∧
       ((create_looker_scratch_schema ctx ≫= fun _ => trigger_each ctx order)
          (enter s).2).1 = Raise e).
Proof.
  unfold trigger_all, mbind, M_bind, bind, lift, try_except. simpl.
  destruct (view_topological_order ctx) as [order|e|];
    [|exists []; simpl; rewrite (right_id_L [] (++)); split; [done|]; left; constructor..].
  set (s' := {| db := db s; files := files s; trace := trace s; transaction := None |}).
  destruct (quiet_create_schema ctx s') as (evs & Ht & Hev%only_executes_no_rollback & _).
  assert (∃ evs1,
             trace ((create_looker_scratch_schema ctx ≫= fun _ => trigger_each ctx order)
                      s').2 = trace s ++ evs1 ∧ no_rollback evs1) as (evs1 & Ht1 & Hev1).
  { unfold mbind, M_bind, bind.
    destruct (create_looker_scratch_schema ctx s') as [[[]|e|] s1]; simpl in *;
      [|by exists evs..].
    destruct (trigger_each_no_rollback ctx order s1) as (evs' & Ht' & Hev').
    exists (evs ++ evs'). split; [by rewrite Ht', Ht, (assoc_L (++))|by apply Forall_app]. }
  unfold mbind, M_bind, bind in Ht1 |- *.
  destruct (create_looker_scratch_schema ctx s') as [[[]|e|] s1];
    [destruct (trigger_each ctx order s1) as [[[]|e|] s2] eqn:Hloop| |]; simpl in *.
  - exists evs1. split; [done|by left].
  - unfold rollback_transaction. destruct (transaction s2) as [t|].
    + destruct (conn_rollback t (db s2)) as [a d]. simpl.
      exists (evs1 ++ [ERollback]). split; [by rewrite Ht1, (assoc_L (++))|].
      right. exists evs1, order, e. split_and!; try done. by rewrite Hloop.
    + exists evs1. split; [done|by left].
  - exists evs1. split; [done|by left].
  - unfold rollback_transaction. destruct (transaction s1) as [t|].
    + destruct (conn_rollback t (db s1)) as [a d]. simpl.
      exists (evs1 ++ [ERollback]). split; [by rewrite Ht1, (assoc_L (++))|].
      right. exists evs1, order, e. by split_and!.
    + exists evs1. split; [done|by left].
  - exists evs1. split; [done|by left].
Qed.

End the_loop.

Lemma unpersisted_views_skipped_witness :
  trigger_each ctx_bases ["a"; "b"] (start [] ∅) = (Ok tt, start [] ∅).
Proof.
  apply (unpersisted_views_skipped (conn := scripted) ctx_bases ["a"; "b"] (start [] ∅)).
  intros name Hname. set_unfold.
  destruct Hname as [->|[->|[]]]; eexists; split; reflexivity.
Defined.

Lemma unknown_dialect_sends_nothing_witness :
  trigger_all ctx_mysql (start [] ∅) =
    (Raise (UnboundLocalError "transaction"),
     {| db := db (start [] ∅); files := files (start [] ∅); trace := trace (start [] ∅);
        transaction := None |}).
Proof.
  apply (unknown_dialect_sends_nothing (conn := scripted) ctx_mysql ["der1"] (start [] ∅)).
  - discriminate.
  - vm_compute. reflexivity.
Defined.

(** ** More on the order of the views *)

Lemma visit_within adj (U : gset string) fuel name st st' :
  (∀ v w, edge adj v w → w ∈ U) →
  name ∈ U →
  (∀ x, x ∈ ordered_view_names st → x ∈ U) →
  visit fuel adj name st = Ok st' →
  ∀ x, x ∈ ordered_view_names st' → x ∈ U.
Proof.
  intros Hclosed. revert name st st'.
  induction fuel as [|fuel IH]; intros name st st' Hname Hst H; simpl in H; [done|].
  case_decide; [by inversion H; subst|]. case_decide; [done|].
  destruct (for_each _ _ _) as [s1| |] eqn:E; simpl in H; try done.
  inversion H; subst; clear H. simpl.
  assert (∀ x, x ∈ ordered_view_names s1 → x ∈ U) as Hs1.
  { eapply (for_each_inv _ (fun s => ∀ x, x ∈ ordered_view_names s → x ∈ U)); [| |exact E].
    - intros y s s' Hy Hs Hv. eapply IH; [|done|done]. by eapply Hclosed.
    - done. }
  intros x [->|Hx]%elem_of_cons; auto.
Qed.

Lemma visit_all_within adj (U : gset string) fuel names st :
  (∀ v w, edge adj v w → w ∈ U) →
  (∀ x, x ∈ names → x ∈ U) →
  visit_all fuel adj names = Ok st →
  ∀ x, x ∈ ordered_view_names st → x ∈ U.
Proof.
  intros Hclosed Hnames H.
  eapply (for_each_inv _ (fun s => ∀ x, x ∈ ordered_view_names s → x ∈ U)); [| |exact H].
  - intros y s s' Hy Hs. unfold entry. case_decide; [by intros [= <-]|].
    intros Hv. eapply visit_within; [done| |done|done]. by apply Hnames.
  - simpl. by intros x ?%elem_of_nil.
Qed.

(** X9: the order [view_topological_order] returns holds the names of the
    loaded views, all of them, persisted or not, each once, and nothing
    else. *)
Theorem order_is_the_loaded_views ctx order :
  view_topological_order ctx = Ok order →
  NoDup order ∧ ∀ x, x ∈ order ↔ x ∈ view_names ctx.
Proof.
  unfold view_topological_order.
  destruct (build_adjacency_lists ctx) as [adj| |] eqn:Hadj; simpl; try done.
  destruct (visit_all _ _ _) as [st| |] eqn:V; simpl; try done.
  intros [= <-].
  destruct (visit_all_order _ _ _ _ V) as (Hnd & Hall & _).
  split; [done|]. intros x. split; [|by apply Hall].
  rewrite elem_of_reverse. intros Hx.
  rewrite <- (elem_of_list_to_set (C := gset string)).
  revert x Hx. eapply visit_all_within; [| |exact V].
  - intros v w Hvw. rewrite elem_of_list_to_set.
    exact (proj2 (build_adjacency_lists_edges _ _ Hadj v w Hvw)).
  - intros x Hx. by rewrite elem_of_list_to_set.
Qed.

(** X10: when the dependency set of every view can be read, the order is
    returned exactly when no view refers to itself, directly or through
    other views; otherwise the error of the cycle is raised, and it names a
    view that refers to itself. *)
Theorem order_exists_iff_acyclic ctx :
  readable ctx →
  ((∃ order, view_topological_order ctx = Ok order) ↔ acyclic_references ctx) ∧
  ((∃ v, view_topological_order ctx =
           Raise (Exception ("Views contain a circular dependency " +:+ v)) ∧
         tc (refers ctx) v v) ↔ ¬ acyclic_references ctx).
Proof.
  intros [(order & Ho & Hacyclic & _)|(v & Hraise & Hv)]%view_topological_order_outcome.
  - split.
    + split; [done|]. intros _. by exists order.
    + split; [|done]. intros (v & Hraise & _). by rewrite Ho in Hraise.
  - split.
    + split; [|intros Hacyclic; by destruct (Hacyclic v)].
      intros [order Ho]. by rewrite Hraise in Ho.
    + split; [|intros _; by exists v]. intros _ Hacyclic. by apply (Hacyclic v).
Qed.

(** X24: when the dependency set of every view can be read and no view
    refers to itself, directly or through other views,
    [view_topological_order] returns an order that holds every view once and
    in which whatever a view refers to, directly or through other views,
    stands at a smaller index than the view itself. *)
Theorem order_respects_references ctx :
  readable ctx →
  acyclic_references ctx →
  ∃ order,
    view_topological_order ctx = Ok order ∧
    NoDup order ∧
    (∀ v, v ∈ view_names ctx → v ∈ order) ∧
    ∀ v w, v ∈ order → tc (refers ctx) v w → earlier order w v.
Proof.
  intros [(order & Ho & _ & Hrest)|(v & _ & Hv)]%view_topological_order_outcome Hacyclic.
  - by exists order.
  - by destruct (Hacyclic v).
Qed.

(** X25: when the dependency set of every view can be read and some view
    refers to itself, directly or through other views,
    [view_topological_order] raises the error that names such a view, and
    [trigger_all] raises that same error with nothing executed on the
    warehouse: the trace, the warehouse and the stored trigger values are as
    they were. *)
Theorem cycle_raised_before_any_sql {conn : Connection} ctx (s : State) :
  readable ctx →
  (∃ v, tc (refers ctx) v v) →
  ∃ v,
    tc (refers ctx) v v ∧
    view_topological_order ctx =
      Raise (Exception ("Views contain a circular dependency " +:+ v)) ∧
    (trigger_all ctx s).1 =
      Raise (Exception ("Views contain a circular dependency " +:+ v)) ∧
    trace (trigger_all ctx s).2 = trace s ∧
    db (trigger_all ctx s).2 = db s ∧
    files (trigger_all ctx s).2 = files s.
Proof.
  intros [(order & _ & Hacyclic & _)|(v & Hraise & Hv)]%view_topological_order_outcome [v0 Hv0].
  - by destruct (Hacyclic v0).
  - exists v. split; [done|]. split; [done|].
    unfold trigger_all, mbind, M_bind, bind, enter, lift. rewrite Hraise. done.
Qed.

(** X11: every edge of the dependency graph starts at a persisted derived
    table and ends at a loaded view: base tables and derived tables without
    a trigger have no dependencies. *)
Theorem edges_start_at_persisted_tables ctx adj v w :
  build_adjacency_lists ctx = Ok adj →
  edge adj v w →
  (∃ k vo, (k, vo) ∈ views ctx ∧ view_name vo = v ∧ is_persisted_derived_table vo = true) ∧
  w ∈ view_names ctx.
Proof.
  intros Hadj Hedge. split; [|exact (proj2 (build_adjacency_lists_edges _ _ Hadj v w Hedge))].
  revert v w Hedge. unfold build_adjacency_lists in Hadj.
  eapply (for_each_inv _ (fun a => ∀ v w, edge a v w →
            ∃ k vo, (k, vo) ∈ views ctx ∧ view_name vo = v ∧
                    is_persisted_derived_table vo = true)); [| |exact Hadj].
  2:{ intros v w. unfold edge, adjacent. rewrite lookup_empty. simpl. by intros ?%elem_of_nil. }
  intros [k v0] a a' Hin Ha.
  destruct (view_dependencies ctx v0) as [deps| |] eqn:E; simpl; try done.
  intros [= <-].
  assert (dependency_objects deps = [] ∨ is_persisted_derived_table v0 = true) as Hpdt.
  { unfold view_dependencies in E.
    destruct (negb (is_derived_table v0)); [left; by inversion E|].
    destruct (is_persisted_derived_table v0); [by right|left; by inversion E]. }
  destruct Hpdt as [->|Hpdt]; [done|].
  revert a Ha. induction (dependency_objects deps) as [|d l IH]; intros a Ha; simpl; [done|].
  apply IH. intros v w. unfold edge. rewrite adjacent_append. case_decide as Hk.
  - subst v. intros _. by exists k, v0.
  - apply Ha.
Qed.

Lemma order_is_the_loaded_views_witness :
  NoDup ["base"; "der1"; "der2"] ∧
  ∀ x, x ∈ ["base"; "der1"; "der2"] ↔ x ∈ view_names ctx_chain.
Proof.
  apply (order_is_the_loaded_views ctx_chain ["base"; "der1"; "der2"]).
  vm_compute. reflexivity.
Defined.

Lemma order_exists_iff_acyclic_witness :
  ((∃ order, view_topological_order ctx_chain = Ok order) ↔ acyclic_references ctx_chain) ∧
  ((∃ v, view_topological_order ctx_chain =
           Raise (Exception ("Views contain a circular dependency " +:+ v)) ∧
         tc (refers ctx_chain) v v) ↔ ¬ acyclic_references ctx_chain).
Proof.
  apply (order_exists_iff_acyclic ctx_chain). exact ctx_chain_readable.
Defined.

Lemma order_respects_references_witness :
  ∃ order,
    view_topological_order ctx_chain = Ok order ∧
    NoDup order ∧
    (∀ v, v ∈ view_names ctx_chain → v ∈ order) ∧
    ∀ v w, v ∈ order → tc (refers ctx_chain) v w → earlier order w v.
Proof.
  apply (order_respects_references ctx_chain).
  - exact ctx_chain_readable.
  - exact ctx_chain_acyclic_references.
Defined.

Lemma cycle_raised_before_any_sql_witness :
  ∃ v,
    tc (refers ctx_cycle) v v ∧
    view_topological_order ctx_cycle =
      Raise (Exception ("Views contain a circular dependency " +:+ v)) ∧
    (trigger_all ctx_cycle (start [] ∅)).1 =
      Raise (Exception ("Views contain a circular dependency " +:+ v)) ∧
    trace (trigger_all ctx_cycle (start [] ∅)).2 = trace (start [] ∅) ∧
    db (trigger_all ctx_cycle (start [] ∅)).2 = db (start [] ∅) ∧
    files (trigger_all ctx_cycle (start [] ∅)).2 = files (start [] ∅).
Proof.
  apply (cycle_raised_before_any_sql (conn := scripted) ctx_cycle).
  - exact ctx_cycle_readable.
  - exact ctx_cycle_cyclic.
Defined.

Lemma edges_start_at_persisted_tables_witness :
  (∃ k vo, (k, vo) ∈ views ctx_chain ∧ view_name vo = "der2" ∧
           is_persisted_derived_table vo = true) ∧
  "der1" ∈ view_names ctx_chain.
Proof.
  apply (edges_start_at_persisted_tables ctx_chain (graph_of ctx_chain) "der2" "der1").
  - vm_compute. reflexivity.
  - unfold edge. apply list_elem_of_In. vm_compute. auto.
Defined.

(** ** More on reference extraction *)

Lemma string_app_assoc (a b c : string) : (a +:+ b) +:+ c = a +:+ (b +:+ c).
Proof.
  induction a as [|x a IH]; [done|].
  change (String x ((a +:+ b) +:+ c) = String x (a +:+ (b +:+ c))). by rewrite IH.
Qed.

Lemma append_cons (x : ascii) (a b : string) : String x a +:+ b = String x (a +:+ b).
Proof. done. Qed.

Lemma re_match_marker s r : re_match s = Some r → ∃ s', s = String "$" (String "{" s').
Proof.
  unfold re_match. destruct s as [|c [|c' s']]; try done.
  - by destruct c as [[] [] [] [] [] [] [] []].
  - destruct c as [[] [] [] [] [] [] [] []]; try done.
    destruct c' as [[] [] [] [] [] [] [] []]; try done. intros _. by exists s'.
Qed.

Lemma finditer_from_no_marker k s : contains "${" s = false → finditer_from k s = [].
Proof.
  revert k. induction s as [|c s IH]; intros k H; [done|].
  change (String.prefix "${" (String c s) || contains "${" s = false) in H.
  apply orb_false_iff in H as [Hp Hs]. cbn [finditer_from].
  destruct k as [|k]; [|by apply IH].
  destruct (re_match (String c s)) as [[g rest]|] eqn:E; [|by apply IH].
  apply re_match_marker in E as [s' [= -> ->]]. by destruct s'.
Qed.

(** X12: a template without the marker of a reference gives no
    dependency, whatever else it holds: a percent sign or braces are not
    taken for a reference. *)
Theorem template_without_marker_has_no_dependencies ctx v sql :
  vo_derived_table v ≫= dt_sql = Some sql →
  contains "${" sql = false →
  view_dependencies ctx v = Ok ∅.
Proof.
  intros Hsql Hmarker. unfold view_dependencies.
  destruct (negb (is_derived_table v)); [done|].
  destruct (is_persisted_derived_table v); [|done].
  rewrite Hsql. unfold finditer. by rewrite finditer_from_no_marker.
Qed.

Lemma no_brace_no_match p :
  all_chars (other_than "}") p = true →
  re_close p = None ∧ re_group p = None ∧ re_open p = None.
Proof.
  induction p as [|c p IH]; simpl; [done|].
  intros [Hc Hp]%andb_true_iff. destruct (IH Hp) as (Hclose & Hgroup & Hopen).
  unfold other_than in Hc. apply negb_true_iff in Hc. rewrite Hc, Hclose, Hgroup, Hopen.
  split_and!; by repeat case_match.
Qed.

Lemma finditer_from_no_brace k p : all_chars (other_than "}") p = true → finditer_from k p = [].
Proof.
  revert k. induction p as [|c p IH]; intros k H; [done|].
  assert (all_chars (other_than "}") p = true) as Hp
    by (simpl in H; by apply andb_true_iff in H as [_ ?]).
  cbn [finditer_from]. destruct k as [|k]; [|by apply IH].
  destruct (re_match (String c p)) as [[g rest]|] eqn:E; [|by apply IH].
  exfalso. pose proof E as [s' [= -> ->]]%re_match_marker. cbn [re_match] in E.
  assert (all_chars (other_than "}") s' = true) as Hs' by (simpl in Hp; exact Hp).
  by rewrite (proj2 (proj2 (no_brace_no_match _ Hs'))) in E.
Qed.

Lemma re_group_closed g p :
  g ≠ EmptyString →
  all_chars (other_than newline) g = true →
  all_chars (other_than "}") p = true →
  re_group (g +:+ String "}" p) = Some (g, p).
Proof.
  intros Hg Hnl Hp. induction g as [|c g IH]; [done|].
  simpl in Hnl. apply andb_true_iff in Hnl as [Hc Hnl].
  unfold other_than in Hc. apply negb_true_iff in Hc. simpl. rewrite Hc.
  destruct g as [|c' g].
  - simpl. destruct (no_brace_no_match _ Hp) as (Hclose & Hgroup & _).
    rewrite Hgroup, Hclose. by destruct (Ascii.eqb "}" newline).
  - by rewrite IH.
Qed.

Lemma finditer_from_skip a b : finditer_from (String.length a) (a +:+ b) = finditer_from 0 b.
Proof. induction a as [|c a IH]; simpl; [by destruct b|done]. Qed.

Lemma finditer_from_no_dollar pre s :
  all_chars (other_than "$") pre = true →
  finditer_from 0 (pre +:+ s) = finditer_from 0 s.
Proof.
  induction pre as [|c pre IH]; [done|].
  intros H. simpl in H. apply andb_true_iff in H as [Hc Hpre].
  rewrite append_cons. cbn [finditer_from].
  destruct (re_match (String c (pre +:+ s))) as [[g rest]|] eqn:E; [|by apply IH].
  apply re_match_marker in E as [s' [= -> _]]. by vm_compute in Hc.
Qed.

Lemma split_no_dot s : all_chars (other_than ".") s = true → split "." s = [s].
Proof.
  induction s as [|c s IH]; simpl; [done|].
  intros [Hc Hs]%andb_true_iff. unfold other_than in Hc. apply negb_true_iff in Hc.
  by rewrite Hc, IH.
Qed.

Lemma split_one_dot a b :
  all_chars (other_than ".") a = true → all_chars (other_than ".") b = true →
  split "." (a +:+ "." +:+ b) = [a; b].
Proof.
  intros Ha Hb. induction a as [|c a IH].
  - change (split "." (String "." b) = [EmptyString; b]). simpl. by rewrite split_no_dot.
  - simpl in Ha. apply andb_true_iff in Ha as [Hc Ha].
    unfold other_than in Hc. apply negb_true_iff in Hc.
    rewrite append_cons. cbn [split]. by rewrite Hc, IH.
Qed.

Lemma all_chars_impl (P Q : ascii → bool) s :
  (∀ c, P c = true → Q c = true) → all_chars P s = true → all_chars Q s = true.
Proof.
  intros HPQ. induction s as [|c s IH]; simpl; [done|].
  intros [Hc Hs]%andb_true_iff. by rewrite (HPQ _ Hc), IH.
Qed.

Lemma all_chars_app P a b :
  all_chars P a = true → all_chars P b = true → all_chars P (a +:+ b) = true.
Proof.
  intros Ha Hb. induction a as [|c a IH]; simpl; [done|].
  simpl in Ha. apply andb_true_iff in Ha as [Hc Ha]. by rewrite Hc, IH.
Qed.

(** The one match of a template that holds one reference. *)
Lemma finditer_single pre name field post :
  all_chars (other_than "$") pre = true →
  name ≠ EmptyString →
  all_chars name_char name = true →
  all_chars field_char field = true →
  all_chars (other_than "}") post = true →
  finditer (pre +:+ "${" +:+ name +:+ "." +:+ field +:+ "}" +:+ post) =
    [name +:+ "." +:+ field].
Proof.
  intros Hpre Hne Hname Hfield Hpost. unfold finditer.
  rewrite finditer_from_no_dollar by done.
  set (g := name +:+ "." +:+ field).
  assert (re_open (g +:+ String "}" post) = Some (g, post)) as Hopen.
  { assert (re_group (g +:+ String "}" post) = Some (g, post)) as Hgroup.
    { apply re_group_closed; [by destruct name| |done].
      apply all_chars_app; [|simpl; apply (all_chars_impl field_char); [|done]].
      - apply (all_chars_impl name_char); [|done].
        intros c [_ Hc]%andb_true_iff. unfold other_than.
        destruct (Ascii.eqb_spec c newline) as [->|]; [done|done].
      - by intros c [_ Hc]%andb_true_iff. }
    destruct name as [|c name]; [done|]. subst g. simpl in *.
    apply andb_true_iff in Hname as [[_ Hc]%andb_true_iff _].
    apply negb_true_iff in Hc. by rewrite Hc. }
  change ("${" +:+ name +:+ "." +:+ field +:+ "}" +:+ post)
    with (String "$" (String "{" (name +:+ "." +:+ field +:+ "}" +:+ post))).
  replace (name +:+ "." +:+ field +:+ "}" +:+ post) with (g +:+ String "}" post)
    by (subst g; by rewrite !string_app_assoc).
  cbn [finditer_from re_match]. rewrite Hopen. f_equal.
  replace (String.length (String "$" (String "{" (g +:+ String "}" post))) -
           String.length post - 1) with (S (String.length (g +:+ "}"))).
  2:{ cbn [String.length]. rewrite !string_length_append. cbn [String.length]. lia. }
  replace (g +:+ String "}" post) with ((g +:+ "}") +:+ post)
    by (by rewrite string_app_assoc).
  rewrite finditer_from_skip. by apply finditer_from_no_brace.
Qed.

(** X13: for a persisted derived table whose template holds one reference
    [${name.field}], with no dollar sign before it and no closing brace after
    it, the dependency set is the view loaded under [name], and when no view
    is loaded under [name], [KeyError] is raised for that name. *)
Theorem single_reference_resolved ctx v pre name field post :
  is_persisted_derived_table v = true →
  vo_derived_table v ≫= dt_sql =
    Some (pre +:+ "${" +:+ name +:+ "." +:+ field +:+ "}" +:+ post) →
  all_chars (other_than "$") pre = true →
  name ≠ EmptyString →
  all_chars name_char name = true →
  all_chars field_char field = true →
  all_chars (other_than "}") post = true →
  view_dependencies ctx v =
    match dict_get name (views ctx) with
    | Some dependency => Ok {[ name := dependency ]}
    | None => Raise (KeyError name)
    end.
Proof.
  intros Hpdt Hsql Hpre Hne Hname Hfield Hpost. unfold view_dependencies.
  rewrite (pdt_is_derived _ Hpdt), Hpdt, Hsql. simpl negb. cbv iota.
  rewrite finditer_single by done. cbn [for_each].
  rewrite split_one_dot; simpl.
  - by destruct (dict_get name (views ctx)).
  - apply (all_chars_impl name_char); [|done]. by intros c [Hc _]%andb_true_iff.
  - apply (all_chars_impl field_char); [|done]. by intros c [Hc _]%andb_true_iff.
Qed.

Lemma template_without_marker_has_no_dependencies_witness :
  view_dependencies (ctx_ab plain_template) (pdt "c" plain_template "select 1") = Ok ∅.
Proof.
  apply (template_without_marker_has_no_dependencies (ctx_ab plain_template)
           (pdt "c" plain_template "select 1") plain_template); reflexivity.
Defined.

Lemma single_reference_resolved_witness :
  view_dependencies ctx_chain der2 =
    match dict_get "der1" (views ctx_chain) with
    | Some dependency => Ok {[ "der1" := dependency ]}
    | None => Raise (KeyError "der1")
    end.
Proof.
  apply (single_reference_resolved ctx_chain der2 "select * from " "der1" "SQL_TABLE_NAME" "");
    try reflexivity.
  discriminate.
Defined.

(** ** Loading *)

Lemma dict_get_set_eq {V} k (v : V) d : dict_get k (dict_set k v d) = Some v.
Proof.
  induction d as [|[k' v'] d IH]; simpl; [by rewrite decide_True|].
  case_decide; simpl; [by rewrite decide_True|by rewrite decide_False].
Qed.

Lemma dict_get_set_ne {V} k k' (v : V) d :
  k' ≠ k → dict_get k' (dict_set k v d) = dict_get k' d.
Proof.
  intros Hne. induction d as [|[k0 v0] d IH]; simpl; [by rewrite decide_False|].
  case_decide; simpl; subst.
  - by rewrite !decide_False.
  - case_decide; [done|apply IH].
Qed.

Lemma dict_set_keys {V} k (v : V) d x : x ∈ (dict_set k v d).*1 ↔ x = k ∨ x ∈ d.*1.
Proof.
  induction d as [|[k0 v0] d IH]; simpl; [set_solver|].
  case_decide; subst; simpl; set_solver.
Qed.

Lemma dict_set_NoDup {V} k (v : V) d : NoDup d.*1 → NoDup (dict_set k v d).*1.
Proof.
  induction d as [|[k0 v0] d IH]; simpl; intros Hnd.
  - apply NoDup_singleton.
  - apply NoDup_cons in Hnd as [Hk0 Hnd]. case_decide; subst; simpl.
    + by apply NoDup_cons.
    + apply NoDup_cons. split; [|by apply IH]. rewrite dict_set_keys. set_solver.
Qed.

Lemma dict_get_of_elem {V} k (v : V) d : NoDup d.*1 → (k, v) ∈ d → dict_get k d = Some v.
Proof.
  induction d as [|[k0 v0] d IH]; simpl; intros Hnd Hin; [by apply elem_of_nil in Hin|].
  apply NoDup_cons in Hnd as [Hk0 Hnd].
  apply elem_of_cons in Hin as [[= -> ->]|Hin]; [by rewrite decide_True|].
  case_decide; [|by apply IH]. subst. destruct Hk0.
  by apply (list_elem_of_fmap_2' fst _ (k0, v)).
Qed.

Lemma load_step_well_formed d ctx ctx' :
  load_step d ctx = Ok ctx' → well_formed ctx →
  well_formed ctx' ∧ sql_dialect ctx' = sql_dialect ctx.
Proof.
  unfold load_step, LookerView. destruct (decl_view d) as [name|]; [|by intros [= <-]].
  set (v := {| vo_view := name; vo_derived_table := decl_derived_table d;
               vo_sql_table_name := decl_sql_table_name d |}).
  destruct (sql_schema_name ctx v) as [schema| |] eqn:Hschema; simpl; try done.
  destruct (sql_table_name v) as [table| |] eqn:Htable; simpl; try done.
  intros [= <-] [Hnd Hwf]. split; [|done]. split; simpl.
  - by apply dict_set_NoDup.
  - intros k v' Hget. destruct (decide (k = name)) as [->|Hne].
    + change (view_name v) with name in Hget. rewrite dict_get_set_eq in Hget.
      inversion Hget; subst v'. split; [done|]. exists schema, table.
      split_and!; [done|done|apply dict_get_set_eq].
    + change (view_name v) with name in Hget. rewrite dict_get_set_ne in Hget by done.
      destruct (Hwf k v' Hget) as (Hk & schema' & table' & Hs & Ht & Hp).
      split; [done|]. exists schema', table'. split_and!; [done|done|].
      rewrite dict_get_set_ne; [done|]. intros Heq. by apply string_append_inj_r in Heq.
Qed.

Lemma load_lookml_well_formed ctx ds ctx' :
  load_lookml ctx ds = Ok ctx' → well_formed ctx →
  well_formed ctx' ∧ sql_dialect ctx' = sql_dialect ctx.
Proof.
  unfold load_lookml. revert ctx. induction ds as [|d ds IH]; intros ctx H Hwf; simpl in H.
  - by inversion H; subst.
  - destruct (load_step d ctx) as [c1| |] eqn:E; simpl in H; try done.
    destruct (load_step_well_formed _ _ _ E Hwf) as [Hwf1 Hd1].
    destruct (IH _ H Hwf1) as [Hwf' Hd']. split; [done|congruence].
Qed.

(** X14: in a context loaded from the empty one, the keys of [views] are
    distinct, every view is stored under its own name, and its physical
    location is registered under the parameter [<view>.SQL_TABLE_NAME]. *)
Theorem loaded_context_well_formed dialect ds ctx :
  load_lookml (new_context dialect) ds = Ok ctx →
  well_formed ctx ∧ sql_dialect ctx = dialect.
Proof.
  intros H. apply (load_lookml_well_formed _ _ _ H). split; simpl; [constructor|done].
Qed.

(** X15: records without the key [view] are passed over: loading a file is
    loading its records that have the key, and the error of the constructor
    for a record without it is never raised. *)
Theorem records_without_view_skipped ctx ds :
  load_lookml ctx ds = load_lookml ctx (filter (fun d => has_view d = true) ds) ∧
  load_lookml ctx ds ≠
    Raise (Exception "Invalid view object: contains no view key-value pair!").
Proof.
  split.
  - unfold load_lookml. revert ctx. induction ds as [|d ds IH]; intros ctx; [done|].
    rewrite filter_cons. destruct (decl_view d) as [name|] eqn:Hd.
    + rewrite decide_True by (unfold has_view; by rewrite Hd). simpl.
      destruct (load_step d ctx) as [c1| |]; simpl; [apply IH|done|done].
    + rewrite decide_False by (unfold has_view; by rewrite Hd). simpl.
      unfold load_step at 1. rewrite Hd. simpl. apply IH.
  - unfold load_lookml. revert ctx. induction ds as [|d ds IH]; intros ctx; [done|].
    simpl. destruct (load_step d ctx) as [c1|e|] eqn:E; simpl; [apply IH| |done].
    intros [= ->]. revert E. unfold load_step, LookerView, sql_schema_name, sql_table_name,
      default_schema, unknown_dialect.
    destruct (decl_view d); [|done]. by repeat (case_match; simpl).
Qed.

(** X16: under postgresql, a file in which every view that is not a
    derived table names its table loads without error. *)
Theorem load_lookml_succeeds ds :
  (∀ d, d ∈ ds → has_view d = true → decl_derived_table d = None →
        is_Some (decl_sql_table_name d)) →
  ∃ ctx, load_lookml (new_context "postgresql") ds = Ok ctx.
Proof.
  unfold load_lookml.
  generalize (eq_refl : sql_dialect (new_context "postgresql") = "postgresql").
  generalize (new_context "postgresql") as ctx.
  induction ds as [|d ds IH]; intros ctx Hd Hall; [by eexists|].
  simpl.
  assert (∃ c1, load_step d ctx = Ok c1 ∧ sql_dialect c1 = "postgresql") as (c1 & -> & Hd1).
  { unfold load_step, LookerView, sql_schema_name, sql_table_name, default_schema,
      is_derived_table. simpl.
    destruct (decl_view d) as [name|] eqn:Hname; [|by eexists].
    destruct (decl_derived_table d) as [dt|] eqn:Hdt; simpl; [by eexists|].
    rewrite Hd. simpl.
    destruct (Hall d) as [t ->]; [left|unfold has_view; by rewrite Hname|done|].
    simpl. by eexists. }
  simpl. apply IH; [done|]. intros d' Hd'. apply Hall. by right.
Qed.

(** X17: a declaration replaces an earlier one of the same name: after
    loading, the view found under the name of the last record of the file is
    the view of that record. *)
Theorem last_declaration_wins ctx ds d name ctx' :
  load_lookml ctx (ds ++ [d]) = Ok ctx' →
  decl_view d = Some name →
  dict_get name (views ctx') =
    Some {| vo_view := name; vo_derived_table := decl_derived_table d;
            vo_sql_table_name := decl_sql_table_name d |}.
Proof.
  unfold load_lookml. revert ctx. induction ds as [|d0 ds IH]; intros ctx H Hname; simpl in H.
  - destruct (load_step d ctx) as [c1| |] eqn:E; simpl in H;
      try done. inversion H; subst c1. clear H. revert E.
    unfold load_step, LookerView. rewrite Hname.
    destruct (sql_schema_name _ _); simpl; try done.
    destruct (sql_table_name _); simpl; try done.
    intros [= <-]. simpl. apply dict_get_set_eq.
  - destruct (load_step d0 ctx) as [c1| |]; simpl in H; try done.
    by apply (IH c1).
Qed.

Lemma view_topological_order_names ctx order :
  view_topological_order ctx = Ok order → ∀ x, x ∈ order → x ∈ view_names ctx.
Proof.
  unfold view_topological_order.
  destruct (build_adjacency_lists ctx) as [adj| |] eqn:Hadj; simpl; try done.
  destruct (visit_all _ _ _) as [st| |] eqn:V; simpl; try done.
  intros [= <-] x Hx. rewrite elem_of_reverse in Hx.
  rewrite <- (elem_of_list_to_set (C := gset string)).
  revert x Hx. eapply visit_all_within; [| |exact V].
  - intros v w Hvw. rewrite elem_of_list_to_set.
    exact (proj2 (build_adjacency_lists_edges _ _ Hadj v w Hvw)).
  - intros x Hx. by rewrite elem_of_list_to_set.
Qed.

(** X18: in a context whose views are stored under their own names with
    distinct keys, as loading leaves it, every name of the order is a key of
    [views]: the lookup [self.views[view_name]] of the loop never raises
    [KeyError]. *)
Theorem order_names_are_keys ctx order name :
  well_formed ctx →
  view_topological_order ctx = Ok order →
  name ∈ order →
  ∃ v, dict_get name (views ctx) = Some v ∧ view_name v = name.
Proof.
  intros [Hnd Hwf] Horder Hname.
  apply (view_topological_order_names _ _ Horder) in Hname.
  unfold view_names in Hname. apply list_elem_of_fmap in Hname as ([k v] & -> & Hin).
  pose proof (dict_get_of_elem _ _ _ Hnd Hin) as Hget.
  destruct (Hwf _ _ Hget) as [Hk _]. simpl. exists v. by rewrite Hk.
Qed.

Lemma loaded_context_well_formed_witness :
  well_formed sample_loaded ∧ sql_dialect sample_loaded = "postgresql".
Proof.
  apply (loaded_context_well_formed "postgresql" sample_file sample_loaded).
  vm_compute. reflexivity.
Defined.

Lemma load_lookml_succeeds_witness :
  ∃ ctx, load_lookml (new_context "postgresql") sample_file = Ok ctx.
Proof.
  apply (load_lookml_succeeds sample_file).
  intros d Hd. unfold sample_file in Hd. set_unfold.
  destruct Hd as [->|[->|[->|[->|[->|[]]]]]]; simpl; intros Hv Ht; try done; by eexists.
Defined.

Lemma last_declaration_wins_witness :
  dict_get "base" (views (ctx_of (load_lookml (new_context "postgresql")
                                    ([declare_base "base" "t_old"] ++
                                     [declare_base "base" "t_base"])))) =
    Some {| vo_view := "base"; vo_derived_table := None; vo_sql_table_name := Some "t_base" |}.
Proof.
  apply (last_declaration_wins (new_context "postgresql") [declare_base "base" "t_old"]
           (declare_base "base" "t_base") "base"); reflexivity.
Defined.

Lemma order_names_are_keys_witness :
  ∃ v, dict_get "der1" (views sample_loaded) = Some v ∧ view_name v = "der1".
Proof.
  apply (order_names_are_keys sample_loaded ["base"; "der1"; "der2"] "der1").
  - apply (load_lookml_well_formed (new_context "postgresql") sample_file sample_loaded).
    + vm_compute. reflexivity.
    + split; simpl; [constructor|done].
  - vm_compute. reflexivity.
  - apply list_elem_of_further, list_elem_of_here.
Defined.

(** ** Rendering the regeneration statement *)

Lemma prefix_cons a p b s :
  String.prefix (String a p) (String b s) = if ascii_dec a b then String.prefix p s else false.
Proof. done. Qed.

Lemma prefix_nil s : String.prefix EmptyString s = true.
Proof. by destruct s. Qed.

Lemma prefix_app a b s : String.prefix (a +:+ b) s = true → String.prefix a s = true.
Proof.
  revert s. induction a as [|c a IH]; intros s H; [apply prefix_nil|].
  rewrite append_cons in H. destruct s as [|d s]; [done|].
  rewrite prefix_cons in *. destruct (ascii_dec c d); [by apply IH|done].
Qed.

Lemma contains_app a b s : contains a s = false → contains (a +:+ b) s = false.
Proof.
  induction s as [|c s IH]; intros H.
  - change (String.prefix a EmptyString || false = false) in H.
    change (String.prefix (a +:+ b) EmptyString || false = false).
    apply orb_false_iff in H as [H _]. apply orb_false_iff. split; [|done].
    destruct (String.prefix (a +:+ b) "") eqn:E; [|done]. apply prefix_app in E. congruence.
  - change (String.prefix a (String c s) || contains a s = false) in H.
    change (String.prefix (a +:+ b) (String c s) || contains (a +:+ b) s = false).
    apply orb_false_iff in H as [H Hs]. apply orb_false_iff. split; [|by apply IH].
    destruct (String.prefix (a +:+ b) (String c s)) eqn:E; [|done].
    apply prefix_app in E. congruence.
Qed.

(** [replace] leaves a string without the pattern as it is. *)
Lemma replace_absent old new s : contains old s = false → replace old new s = s.
Proof.
  unfold replace. induction s as [|c s IH]; intros H; [done|].
  change (String.prefix old (String c s) || contains old s = false) in H.
  apply orb_false_iff in H as [Hp Hs]. cbn [replace_from]. rewrite Hp. by rewrite IH.
Qed.

Lemma escape_step c s :
  replace "%" "%%" (String c s) =
  if ascii_dec "%" c then String "%" (String "%" (replace "%" "%%" s))
  else String c (replace "%" "%%" s).
Proof.
  unfold replace. cbn [replace_from]. rewrite prefix_cons, prefix_nil.
  by destruct (ascii_dec "%" c).
Qed.

Lemma escape_head s t :
  replace "%" "%%" s = String "{" t → ∃ t', s = String "{" t'.
Proof.
  destruct s as [|c s]; [done|]. rewrite escape_step.
  destruct (ascii_dec "%" c); [done|]. intros [= -> _]. by eexists.
Qed.

(** Doubling the percent signs brings no marker of a reference about. *)
Lemma escape_no_marker s :
  contains "${" s = false → contains "${" (replace "%" "%%" s) = false.
Proof.
  induction s as [|c s IH]; intros H; [done|].
  change (String.prefix "${" (String c s) || contains "${" s = false) in H.
  apply orb_false_iff in H as [Hp Hs]. specialize (IH Hs). rewrite escape_step.
  destruct (ascii_dec "%" c) as [<-|Hc].
  - change (String.prefix "${" (String "%" (String "%" (replace "%" "%%" s))) ||
            (String.prefix "${" (String "%" (replace "%" "%%" s)) ||
             contains "${" (replace "%" "%%" s)) = false).
    rewrite !prefix_cons. by destruct (ascii_dec "$" "%").
  - change (String.prefix "${" (String c (replace "%" "%%" s)) ||
            contains "${" (replace "%" "%%" s) = false).
    rewrite IH, orb_false_r. rewrite prefix_cons in *.
    destruct (ascii_dec "$" c); [|done].
    destruct (replace "%" "%%" s) as [|d t] eqn:E; [done|].
    rewrite prefix_cons, prefix_nil. destruct (ascii_dec "{" d) as [<-|]; [|done].
    apply escape_head in E as [t' ->]. rewrite prefix_cons, prefix_nil in Hp.
    by destruct (ascii_dec "{" "{").
Qed.

(** X19: the template of a persisted derived table that holds no marker
    of a reference goes into the regeneration statement with its percent
    signs doubled and otherwise as it is: no registered parameter is
    substituted into it. *)
Theorem template_without_marker_rendered ctx v sql :
  is_persisted_derived_table v = true →
  vo_derived_table v ≫= dt_sql = Some sql →
  contains "${" sql = false →
  regenerate_derived_table_sql ctx v =
    _regenerate_derived_table_sql ctx v (replace "%" "%%" sql).
Proof.
  intros Hpdt Hsql Hmarker. unfold regenerate_derived_table_sql. rewrite Hpdt, Hsql.
  f_equal. apply escape_no_marker in Hmarker. revert Hmarker.
  generalize (replace "%" "%%" sql) as t. unfold all_parameters.
  induction (sql_table_name_parameters ctx) as [|[name value] l IH]; intros t Ht; [done|].
  simpl. assert (contains ("${" +:+ name +:+ "}") t = false) as ->
    by apply (contains_app "${" (name +:+ "}") t Ht).
  by apply IH.
Qed.

(** X20: [str.replace] as the program uses it: a string without the
    pattern is returned as it is, so that the test [pattern in sql] before
    each substitution does not change the statement. *)
Theorem substitution_guard_redundant (parameters : list (string * string)) sql :
  fold_left
    (fun sql '(name, value) =>
       let pattern := "${" +:+ name +:+ "}" in
       if contains pattern sql then replace pattern value sql else sql)
    parameters sql =
  fold_left
    (fun sql '(name, value) => replace ("${" +:+ name +:+ "}") value sql)
    parameters sql.
Proof.
  revert sql. induction parameters as [|[name value] l IH]; intros sql; [done|].
  simpl. destruct (contains _ sql) eqn:E; [apply IH|].
  rewrite (replace_absent _ value _ E). apply IH.
Qed.

Lemma template_without_marker_rendered_witness :
  regenerate_derived_table_sql (ctx_ab plain_template) (pdt "c" plain_template "select 1") =
    _regenerate_derived_table_sql (ctx_ab plain_template) (pdt "c" plain_template "select 1")
      (replace "%" "%%" plain_template).
Proof.
  apply (template_without_marker_rendered (ctx_ab plain_template)
           (pdt "c" plain_template "select 1") plain_template); reflexivity.
Defined.

(** ** Failures of the warehouse *)

Section failures.
Context {conn : Connection}.

(** X21: when the warehouse raises on the query for the existence of the
    table, [trigger_view] raises that very exception after that one
    statement, with nothing stored. *)
Theorem existence_error_raised_again ctx v (s : State) q1 e d1 :
  is_persisted_derived_table v = true →
  _has_table_sql ctx ("_" +:+ view_name v) "looker_scratch" = Ok q1 →
  conn_execute q1 (db s) = (inl e, d1) →
  trigger_view ctx v s =
    (Raise e, {| db := d1; files := files s; trace := trace s ++ [EExecute q1];
                 transaction := transaction s |}).
Proof.
  intros Hpdt Hq1 He1.
  unfold trigger_view, check_staleness, has_table. rewrite Hpdt. run.
  rewrite (pdt_table _ Hpdt), (pdt_schema _ _ Hpdt). simpl. rewrite Hq1. simpl.
  by rewrite He1.
Qed.

(** X22: when the regeneration statement of a stale view raises,
    [trigger_view] raises that very exception and the stored trigger value is
    the one from before: the view will be found stale again. *)
Theorem regeneration_error_keeps_store ctx v (s : State) q1 r1 d1 has q2 r2 d2 latest q3 e d3 :
  is_persisted_derived_table v = true →
  _has_table_sql ctx ("_" +:+ view_name v) "looker_scratch" = Ok q1 →
  conn_execute q1 (db s) = (inr r1, d1) →
  (0 < rowcount r1)%Z →
  head (rows r1) ≫= head = Some has →
  truthy has = true →
  sql_trigger_value v = Ok q2 →
  conn_execute q2 d1 = (inr r2, d2) →
  (0 < rowcount r2)%Z →
  head (rows r2) ≫= head = Some latest →
  is_not_None (default VNone (files s !! _pickle_path v)) &&
    py_eq (default VNone (files s !! _pickle_path v)) latest = false →
  regenerate_derived_table_sql ctx v = Ok q3 →
  conn_execute q3 d2 = (inl e, d3) →
  trigger_view ctx v s =
    (Raise e, {| db := d3; files := files s;
                 trace := trace s ++ [EExecute q1; EExecute q2; EExecute q3];
                 transaction := transaction s |}).
Proof.
  intros Hpdt Hq1 He1 Hc1 Hh1 Hhas Hq2 He2 Hc2 Hh2 Hstale Hq3 He3.
  unfold trigger_view. rewrite Hpdt.
  unfold try_except, mbind, M_bind, bind. simpl.
  rewrite (check_staleness_exists _ _ _ _ _ _ _ _ _ _ _
             Hpdt Hq1 He1 Hc1 Hh1 Hhas Hq2 He2 Hc2 Hh2).
  rewrite Hstale. unfold regenerate_persisted_derived_table. run.
  rewrite Hq3. simpl. rewrite He3. simpl.
  unfold log. simpl. by rewrite <- !(assoc_L (++)).
Qed.

(** X23: the trigger value is written before the commit, and a commit
    that raises does not take it back: the loop stops with the exception of
    the commit, and the store holds what [trigger_view] has written. *)
Theorem failed_commit_keeps_written_value ctx name rest v (s s2 : State) t d e d3 :
  dict_get name (views ctx) = Some v →
  is_persisted_derived_table v = true →
  conn_begin (db s) = (inr t, d) →
  trigger_view ctx v {| db := d; files := files s; trace := trace s ++ [EBegin];
                        transaction := Some t |} = (Ok tt, s2) →
  conn_commit t (db s2) = (inl e, d3) →
  trigger_each ctx (name :: rest) s =
    (Raise e, {| db := d3; files := files s2; trace := trace s2 ++ [ECommit];
                 transaction := Some t |}).
Proof.
  intros Hv Hpdt Hbegin Hview Hcommit.
  assert (transaction s2 = Some t) as Htx.
  { destruct (trigger_view_events ctx v
                {| db := d; files := files s; trace := trace s ++ [EBegin];
                   transaction := Some t |}) as (_ & _ & Htx & _).
    by rewrite Hview in Htx. }
  simpl. unfold mbind, M_bind, bind, lift. rewrite Hv, Hpdt. simpl.
  unfold begin_transaction. rewrite Hbegin, Hview.
  unfold commit_transaction. rewrite Htx, Hcommit. simpl. unfold log. by rewrite Htx.
Qed.

End failures.

Lemma existence_error_raised_again_witness :
  trigger_view ctx_chain der1 (start [inl (DatabaseError "connection lost")] ∅) =
    (Raise (DatabaseError "connection lost"),
     {| db := ([] : @DB scripted); files := ∅; trace := [] ++ [EExecute exists_der1];
        transaction := None |}).
Proof.
  apply (existence_error_raised_again (conn := scripted) ctx_chain der1
           (start [inl (DatabaseError "connection lost")] ∅) exists_der1
           (DatabaseError "connection lost") []); reflexivity.
Defined.

Lemma regeneration_error_keeps_store_witness :
  trigger_view ctx_chain der1 der1_failing =
    (Raise (DatabaseError "disk full"),
     {| db := ([] : @DB scripted); files := files der1_failing;
        trace := trace der1_failing ++
                   [EExecute exists_der1; EExecute "select max(id) from base";
                    EExecute regenerate_der1];
        transaction := transaction der1_failing |}).
Proof.
  apply (regeneration_error_keeps_store (conn := scripted) ctx_chain der1 der1_failing
           exists_der1 {| rowcount := 1; rows := [[VBool true]] |}
           [one_row (VInt 6); inl (DatabaseError "disk full")] (VBool true)
           "select max(id) from base" {| rowcount := 1; rows := [[VInt 6]] |}
           [inl (DatabaseError "disk full")]
           (VInt 6) regenerate_der1 (DatabaseError "disk full") []); reflexivity.
Defined.

Lemma failed_commit_keeps_written_value_witness :
  trigger_each (conn := scripted_failing_commit) ctx_chain ["der1"; "der2"] der1_uncommitted =
    (Raise (DatabaseError "commit failed"),
     {| db := ([] : @DB scripted_failing_commit);
        files := files der1_written;
        trace := trace der1_written ++ [ECommit];
        transaction := Some tt |}).
Proof.
  apply (failed_commit_keeps_written_value (conn := scripted_failing_commit) ctx_chain
           "der1" ["der2"] der1 der1_uncommitted der1_written
           tt [one_row (VBool true); one_row (VInt 6); no_rows]
           (DatabaseError "commit failed") []); reflexivity.
Defined.
